(** * stream3-concat: a shallow embedding of [index.js]

    The module [index.js] exports one constructor, [Concat], a PassThrough
    stream into which any number of readable streams are piped, and four
    chainable methods: [add], [remove], [clear] and [close].

    The embedding is by explicit state passing.  A method takes the instance
    it is invoked on and returns the instance after the call together with
    the completion of the call: the value returned, or the exception thrown.
    The two callbacks handed to [setImmediate] are kept in a queue of the
    instance and run by [turn], one turn of the event loop. *)

From Stdlib Require Import List ZArith NArith String Bool Arith Lia.
Import ListNotations.

Set Warnings "-register-all".

(** ** JavaScript values *)

(** The values a caller can hand to the constructor and the methods.  Objects
    carry the address they live at: [===] on objects is identity.

    - [VObject a u m] is a plain object ([[object Object]]); [u] tells whether
      it has a callable [unpipe] property, [m] is its [maxListeners] property
      when it has one;
    - [VReadable a] is an instance of [stream.Readable] with a [_read]
      function and a [_readableState] object;
    - [VArray a items] is an array. *)
Inductive value : Type :=
| VUndefined
| VNull
| VBool (b : bool)
| VNum (n : Z)
| VStr (s : string)
| VObject (addr : nat) (unpipe : bool) (maxListeners : option N)
| VReadable (addr : nat)
| VArray (addr : nat) (items : list value).

(** [a === b]. *)
Definition strict_eq (a b : value) : bool :=
  match a, b with
  | VUndefined, VUndefined => true
  | VNull, VNull => true
  | VBool x, VBool y => Bool.eqb x y
  | VNum x, VNum y => Z.eqb x y
  | VStr x, VStr y => String.eqb x y
  | VObject x _ _, VObject y _ _ => Nat.eqb x y
  | VReadable x, VReadable y => Nat.eqb x y
  | VArray x _, VArray y _ => Nat.eqb x y
  | _, _ => false
  end.

(** Truthiness, as [||] and [if] test it. *)
Definition truthy (v : value) : bool :=
  match v with
  | VUndefined | VNull => false
  | VBool b => b
  | VNum n => negb (Z.eqb n 0)
  | VStr s => negb (String.eqb s EmptyString)
  | VObject _ _ _ | VReadable _ | VArray _ _ => true
  end.

(** [typeof v.unpipe === 'function']: what [source.unpipe(this)] needs in
    order not to throw.  The [unpipe] of a plain object is the caller's own
    code; it is taken to leave the instance alone. *)
Definition has_unpipe (v : value) : bool :=
  match v with
  | VReadable _ => true
  | VObject _ u _ => u
  | _ => false
  end.

(** The three helpers at the end of [index.js]. *)
Definition isObject (arg : value) : bool :=
  match arg with
  | VObject _ _ _ | VReadable _ => true
  | _ => false
  end.

Definition isArray (arg : value) : bool :=
  match arg with
  | VArray _ _ => true
  | _ => false
  end.

Definition isReadableStream (arg : value) : bool :=
  match arg with
  | VReadable _ => true
  | _ => false
  end.

(** ** Completions *)

Inductive exn : Type :=
| Error (message : string)
| TypeError.

(** The two errors [add] constructs. *)
Definition ClosedError : exn := Error "Stream is closed".
Definition InvalidSourceError : exn := Error "Invalid readable stream".

(** What a method hands back: the instance it was called on, or
    [undefined]. *)
Inductive retval : Type :=
| This
| Undefined.

Inductive completion : Type :=
| Return (r : retval)
| Throw (e : exn).

(** ** The instance *)

(** Events the instance emits as a stream. *)
Inductive event : Type :=
| EPipe (source : value)
| EUnpipe (source : value)
| EEnd
| EClose.

(** The two callbacks [index.js] passes to [setImmediate]. *)
Inductive task : Type :=
| PipeTask (source : value)     (* source.pipe(this, {end : false}) *)
| CloseTask.                    (* this.pause(); this.emit('close') *)

(** The fields [_closed] and [_sources] are those of [index.js].  The others
    are the part of the inherited PassThrough, and of the event loop, that
    [index.js] reads or writes:

    - [readable] is the stream's [readable] property, true until ['end'] has
      been emitted;
    - [ending] records that [end()] has been called;
    - [flowing] tells whether the stream is read in flowing mode: a consumer
      has called [resume()], attached a ['data'] listener or piped the stream
      on, and [pause()] has not been called since.  Nothing reads a new
      instance;
    - [pipes] lists the sources piped into the instance, one entry a pipe;
    - [end_listeners] lists the sources on whose ['end'] a one-shot listener
      bound to [remove] is waiting;
    - [immediates] is the queue of [setImmediate] callbacks;
    - [emitted] is the history of events emitted by the instance, oldest
      first. *)
Record instance : Type := Instance {
  _closed : bool;
  _sources : list value;
  objectMode : bool;
  maxListeners : N;
  readable : bool;
  ending : bool;
  flowing : bool;
  pipes : list value;
  end_listeners : list value;
  immediates : list task;
  emitted : list event
}.

Definition set_closed (b : bool) (st : instance) : instance :=
  Instance b (_sources st) (objectMode st) (maxListeners st) (readable st)
           (ending st) (flowing st) (pipes st) (end_listeners st)
           (immediates st) (emitted st).

Definition set_sources (l : list value) (st : instance) : instance :=
  Instance (_closed st) l (objectMode st) (maxListeners st) (readable st)
           (ending st) (flowing st) (pipes st) (end_listeners st)
           (immediates st) (emitted st).

Definition set_readable (b : bool) (st : instance) : instance :=
  Instance (_closed st) (_sources st) (objectMode st) (maxListeners st) b
           (ending st) (flowing st) (pipes st) (end_listeners st)
           (immediates st) (emitted st).

Definition set_ending (b : bool) (st : instance) : instance :=
  Instance (_closed st) (_sources st) (objectMode st) (maxListeners st)
           (readable st) b (flowing st) (pipes st) (end_listeners st)
           (immediates st) (emitted st).

Definition set_flowing (b : bool) (st : instance) : instance :=
  Instance (_closed st) (_sources st) (objectMode st) (maxListeners st)
           (readable st) (ending st) b (pipes st) (end_listeners st)
           (immediates st) (emitted st).

Definition set_pipes (l : list value) (st : instance) : instance :=
  Instance (_closed st) (_sources st) (objectMode st) (maxListeners st)
           (readable st) (ending st) (flowing st) l (end_listeners st)
           (immediates st) (emitted st).

Definition set_end_listeners (l : list value) (st : instance) : instance :=
  Instance (_closed st) (_sources st) (objectMode st) (maxListeners st)
           (readable st) (ending st) (flowing st) (pipes st) l
           (immediates st) (emitted st).

Definition set_immediates (l : list task) (st : instance) : instance :=
  Instance (_closed st) (_sources st) (objectMode st) (maxListeners st)
           (readable st) (ending st) (flowing st) (pipes st)
           (end_listeners st) l (emitted st).

(** [this.emit(e)], as far as the history goes. *)
Definition emit (e : event) (st : instance) : instance :=
  Instance (_closed st) (_sources st) (objectMode st) (maxListeners st)
           (readable st) (ending st) (flowing st) (pipes st)
           (end_listeners st) (immediates st) (emitted st ++ [e]).

(** [setImmediate(t)]. *)
Definition setImmediate (t : task) (st : instance) : instance :=
  set_immediates (immediates st ++ [t]) st.

(** ** The inherited stream *)

(** [this.end()]: the writable side is ended; a second call does nothing.
    The ['end'] event itself comes later, from [flush_end]. *)
Definition stream_end (st : instance) : instance :=
  set_ending true st.

(** [this.pause()] and [this.resume()]. *)
Definition pause (st : instance) : instance :=
  set_flowing false st.

Definition resume (st : instance) : instance :=
  set_flowing true st.

(** What the stream does by itself between two callbacks: if it is read in
    flowing mode and [end()] has been called, ['end'] is emitted, once, and
    [readable] turns false.  A stream that nothing reads emits no ['end']. *)
Definition flush_end (st : instance) : instance :=
  if ending st && readable st && flowing st
  then emit EEnd (set_readable false st)
  else st.

(** [this.read()] by a consumer that does not use the flowing mode: after
    [end()] the read finds the end of the stream, and ['end'] is emitted as
    above. *)
Definition read (st : instance) : instance :=
  if ending st && readable st
  then emit EEnd (set_readable false st)
  else st.

(** ** The methods *)

(** [array.forEach(f)] for a callback [f] that works on the instance: the
    elements are visited in order, and an exception thrown by [f] ends the
    visit and is thrown by [forEach]. *)
Section ForEach.
Variable f : instance -> value -> instance * completion.

Fixpoint forEach (items : list value) (st : instance)
  : instance * option exn :=
  match items with
  | [] => (st, None)
  | item :: items' =>
      match f st item with
      | (st', Return _) => forEach items' st'
      | (st', Throw e) => (st', Some e)
      end
  end.
End ForEach.

(** [Concat.prototype.add]. *)
Fixpoint add (st : instance) (source : value) {struct source}
  : instance * completion :=
  if _closed st then (st, Throw ClosedError)
  else
    match source with
    | VArray _ items =>
        match forEach (fun st' item => add st' item) items st with
        | (st', None) => (st', Return This)
        | (st', Some e) => (st', Throw e)
        end
    | _ =>
        if negb (isReadableStream source) then (st, Throw InvalidSourceError)
        else
          let st1 := set_sources (_sources st ++ [source]) st in
          let st2 := set_end_listeners (end_listeners st1 ++ [source]) st1 in
          let st3 := setImmediate (PipeTask source) st2 in
          (st3, Return This)
    end.

(** The body of [remove] after [source.unpipe(this)]. *)
Definition remove_body (source : value) (st : instance) : instance :=
  let st1 :=
    set_sources
      (filter (fun item => negb (strict_eq item source)) (_sources st)) st in
  if (List.length (_sources st1) =? 0) && readable st1
  then stream_end st1
  else st1.

(** The first entry of [l] that is [source] is taken out, as [unpipe] does
    with the list of pipes of a source. *)
Fixpoint splice_first (source : value) (l : list value) : list value :=
  match l with
  | [] => []
  | x :: l' => if strict_eq x source then l' else x :: splice_first source l'
  end.

(** The number of pipes from [source] into the instance. *)
Definition piped (source : value) (st : instance) : nat :=
  List.length (filter (fun x => strict_eq x source) (pipes st)).

(** [remove] for a source with [k] pipes into the instance.
    [source.unpipe(this)] does nothing when there is no pipe.  Otherwise it
    takes one pipe down and emits ['unpipe'] on the instance, and the
    listener installed by the constructor,
    [this.on('unpipe', this.remove.bind(this))], runs [remove] for the same
    source, now with one pipe less, before the outer call goes on. *)
Fixpoint remove_piped (k : nat) (source : value) (st : instance) : instance :=
  match k with
  | O => remove_body source st
  | S k' =>
      let st1 := set_pipes (splice_first source (pipes st)) st in
      let st2 := emit (EUnpipe source) st1 in
      let st3 := remove_piped k' source st2 in
      remove_body source st3
  end.

(** [source.unpipe(this)] when it is not [remove] that calls it, for a source
    with pipes into the instance or without: one pipe is taken down,
    ['unpipe'] is emitted on the instance, and the listener of the
    constructor runs [remove] for the source. *)
Definition unpipe (source : value) (st : instance) : instance :=
  match piped source st with
  | O => st
  | S k =>
      remove_piped k source
        (emit (EUnpipe source)
              (set_pipes (splice_first source (pipes st)) st))
  end.

(** [Concat.prototype.remove]. *)
Definition remove (st : instance) (source : value) : instance * completion :=
  if negb (has_unpipe source) then (st, Throw TypeError)
  else (remove_piped (piped source st) source st, Return This).

(** [Concat.prototype.clear].  [forEach] walks the array that [_sources]
    holds when [clear] is called; [remove] never changes that array, it puts
    a new one, made by [filter], in its place. *)
Definition clear (st : instance) : instance * completion :=
  match forEach remove (_sources st) st with
  | (st', None) => (st', Return This)
  | (st', Some e) => (st', Throw e)
  end.

(** [Concat.prototype.close]. *)
Definition close (st : instance) : instance * completion :=
  if _closed st then (st, Return Undefined)
  else
    let st1 := set_closed true st in
    match clear st1 with
    | (st2, Throw e) => (st2, Throw e)
    | (st2, Return _) => (setImmediate CloseTask st2, Return This)
    end.

(** ** The constructor *)

(** [options.maxListeners] for the object the constructor ends up with. *)
Definition get_maxListeners (options : value) : option N :=
  match options with
  | VObject _ _ m => m
  | _ => None
  end.

(** [+m || 0]. *)
Definition or_zero (m : option N) : N :=
  match m with
  | Some n => n
  | None => 0%N
  end.

(** The body of [Concat] when [this] is an instance of [Concat].
    [defaultOptions] is [{objectMode: true}], and [Object.assign] writes it
    over whatever the caller passed.  The arrays [[streams]] and [[]] made
    here are handed to [forEach] and never compared with anything; they sit
    at address 0.  A [streams] that is left without a [forEach] method makes
    the call throw a [TypeError]. *)
Definition construct (streams options : value) : instance * completion :=
  let '(streams1, options1) :=
    if isReadableStream streams then (VArray 0 [streams], options)
    else if isObject streams && strict_eq options VUndefined
         then (VArray 0 [], streams)
         else (streams, options) in
  let streams2 := if truthy streams1 then streams1 else VArray 0 [] in
  let this :=
    Instance false [] true (or_zero (get_maxListeners options1))
             true false false [] [] [] [] in
  match streams2 with
  | VArray _ items =>
      match forEach add items this with
      | (st, None) => (st, Return This)
      | (st, Some e) => (st, Throw e)
      end
  | _ => (this, Throw TypeError)
  end.

(** [Concat(streams, options)]; [with_new] tells whether the call is
    [new Concat(...)]. *)
Definition Concat (with_new : bool) (streams options : value)
  : instance * completion :=
  if negb with_new then construct options VUndefined
  else construct streams options.

(** ** The event loop and the world around the instance *)

(** The two callbacks.  [source.pipe(this, {end : false})] adds a pipe and
    emits ['pipe'] on the instance; the source is taken not to have ended
    yet.  Every pipe listens to ['close'] on the instance in order to take
    itself down: [this.emit('close')] runs, for each pipe there is at that
    moment and in the order in which they were set up, [source.unpipe(this)].
    The history records ['end'] and ['close'] as far as [index.js] brings
    them about; what later versions of the stream emit by themselves once
    they have ended is not part of it. *)
Definition run_task (t : task) (st : instance) : instance :=
  match t with
  | PipeTask source => emit (EPipe source) (set_pipes (pipes st ++ [source]) st)
  | CloseTask =>
      fold_left (fun s source => unpipe source s) (pipes st)
                (emit EClose (pause st))
  end.

(** One turn of the event loop: the stream settles, then every queued
    [setImmediate] callback runs, in the order they were queued, and the
    stream settles after each. *)
Definition turn (st : instance) : instance :=
  let st0 := flush_end st in
  fold_left (fun s t => flush_end (run_task t s))
            (immediates st0) (set_immediates [] st0).

(** [source] emits ['end']: the one-shot listeners that [add] installed on it
    run, oldest first, and are gone. *)
Definition source_end (st : instance) (source : value) : instance * completion :=
  let fired := filter (fun x => strict_eq x source) (end_listeners st) in
  let st1 :=
    set_end_listeners
      (filter (fun x => negb (strict_eq x source)) (end_listeners st)) st in
  match forEach remove fired st1 with
  | (st', None) => (st', Return Undefined)
  | (st', Some e) => (st', Throw e)
  end.

(** Everything that can happen to an instance once it is constructed: the
    four methods, a source that ends, a turn of the event loop, the stream
    settling between two callbacks ([Tick]), and a consumer that resumes,
    pauses or reads the stream. *)
Inductive action : Type :=
| Add (source : value)
| Remove (source : value)
| Clear
| Close
| SourceEnd (source : value)
| Turn
| Tick
| Resume
| Pause
| Read.

Definition step (st : instance) (a : action) : instance * completion :=
  match a with
  | Add source => add st source
  | Remove source => remove st source
  | Clear => clear st
  | Close => close st
  | SourceEnd source => source_end st source
  | Turn => (turn st, Return Undefined)
  | Tick => (flush_end st, Return Undefined)
  | Resume => (resume st, Return Undefined)
  | Pause => (pause st, Return Undefined)
  | Read => (read st, Return Undefined)
  end.

(** A caller that goes on after an exception: the instance after a list of
    actions. *)
Definition run (st : instance) (acts : list action) : instance :=
  fold_left (fun s a => fst (step s a)) acts st.

(** The instances a program can hold: those the constructor returned, after
    any number of actions. *)
Inductive reachable : instance -> Prop :=
| reach_new : forall with_new streams options st r,
    Concat with_new streams options = (st, Return r) -> reachable st
| reach_step : forall st a, reachable st -> reachable (fst (step st a)).

(** How often ['end'] was emitted. *)
Definition is_end (e : event) : bool :=
  match e with
  | EEnd => true
  | _ => false
  end.

Definition ends (st : instance) : nat :=
  List.length (filter is_end (emitted st)).

(** Membership in [_sources], by [===]. *)
Definition member (source : value) (st : instance) : bool :=
  existsb (fun item => strict_eq item source) (_sources st).

(** The registrations a call of [add] makes, for the sources in [l]: each is
    pushed on [_sources], gets its one-shot ['end'] listener, and has its
    [pipe] queued. *)
Definition register (l : list value) (st : instance) : instance :=
  Instance (_closed st) (_sources st ++ l) (objectMode st) (maxListeners st)
           (readable st) (ending st) (flowing st) (pipes st)
           (end_listeners st ++ l) (immediates st ++ map PipeTask l)
           (emitted st).

(** The values [add] meets in a (nested) batch, in the order it meets
    them. *)
Fixpoint leaves (v : value) : list value :=
  match v with
  | VArray _ items => flat_map leaves items
  | _ => [v]
  end.

(** The readable streams at the head of [l], up to the first value that is
    not one. *)
Fixpoint accepted (l : list value) : list value :=
  match l with
  | [] => []
  | x :: l' => if isReadableStream x then x :: accepted l' else []
  end.

(** The instance [new Concat()] returns. *)
Definition empty_instance : instance :=
  Instance false [] true 0%N true false false [] [] [] [].

(** The pipes after a queue of callbacks has run, for the pipes before:
    a pipe callback adds its source, the close callback takes every pipe
    down. *)
Fixpoint pipes_after (tasks : list task) (ps : list value) : list value :=
  match tasks with
  | [] => ps
  | PipeTask source :: tasks' => pipes_after tasks' (ps ++ [source])
  | CloseTask :: tasks' => pipes_after tasks' []
  end.

(** The values that are no objects. *)
Definition is_primitive (v : value) : bool :=
  match v with
  | VUndefined | VNull | VBool _ | VNum _ | VStr _ => true
  | _ => false
  end.

(** Whether a one-shot ['end'] listener installed by [add] is waiting on
    [source]. *)
Definition listening (source : value) (st : instance) : bool :=
  existsb (fun x => strict_eq x source) (end_listeners st).

(** The instance at the point of the constructor where the sources are about
    to be added, for a bound [m] on the listeners. *)
Definition new_instance (m : N) : instance :=
  Instance false [] true m true false false [] [] [] [].

(** What holds, beside [inv], of every instance a program can hold: the
    listeners wait on readable streams, and every member of [_sources] has
    one. *)
Record inv_listeners (st : instance) : Prop := InvListeners {
  il_readable : Forall (fun v => isReadableStream v = true) (end_listeners st);
  il_members : Forall (fun v => listening v st = true) (_sources st)
}.

(** Two proof steps that come back for every action that is neither [add],
    [close] nor a turn of the event loop: [F] is the frame of the action, a
    conjunction of what it does to [_closed], to the queue and to the pipes;
    [IH] is what is known of a closed instance before the action, [Hc] that
    the instance after it is closed, [Hi] and [Hp] that the queue and the
    pipes were empty. *)
Ltac from_queue F IH Hc :=
  let Sc := fresh "Sc" in
  let Si := fresh "Si" in
  let Sp := fresh "Sp" in
  let q := fresh "q" in
  let E1 := fresh "E" in
  let E2 := fresh "E" in
  destruct F as (Sc & Si & [q Sp]);
  [intros ?; discriminate | discriminate | discriminate |];
  rewrite Sc in Hc; rewrite Si, Sp;
  destruct (IH Hc) as [[E1 E2]|E1];
  [left; now rewrite E1, E2 | now right].

Ltac idle_queue F Hi Hp :=
  let Si := fresh "Si" in
  let Sp := fresh "Sp" in
  let q := fresh "q" in
  destruct F as (_ & Si & [q Sp]);
  [intros ?; discriminate | discriminate | discriminate |];
  rewrite Si, Sp, Hi, Hp; auto.

(** Two instances used as examples: what [new Concat(s)] returns for the
    stream [s] at address 1, and what [new Concat([s, t, s])] returns for the
    streams at addresses 1 and 2. *)
Definition one_source : instance :=
  fst (Concat true (VReadable 1) VUndefined).

Definition three_entries : instance :=
  fst (Concat true (VArray 0 [VReadable 1; VReadable 2; VReadable 1])
              VUndefined).

(** What holds of every instance a program can hold. *)
Record inv (st : instance) : Prop := Inv {
  inv_sources : Forall (fun v => isReadableStream v = true) (_sources st);
  inv_ends : ends st = if readable st then 0 else 1;
  inv_ending : readable st = false -> ending st = true;
  inv_closed : _closed st = true -> _sources st = []
}.

(** The fields of the instance after [remove(source)] that went through, in
    terms of the instance before. *)
Record removal (source : value) (st st' : instance) : Prop := Removal {
  rm_closed : _closed st' = _closed st;
  rm_sources : _sources st' =
               filter (fun item => negb (strict_eq item source)) (_sources st);
  rm_objectMode : objectMode st' = objectMode st;
  rm_maxListeners : maxListeners st' = maxListeners st;
  rm_readable : readable st' = readable st;
  rm_ending : ending st' =
              ending st ||
              ((List.length
                  (filter (fun item => negb (strict_eq item source))
                          (_sources st)) =? 0) && readable st);
  rm_flowing : flowing st' = flowing st;
  rm_end_listeners : end_listeners st' = end_listeners st;
  rm_immediates : immediates st' = immediates st;
  rm_ends : ends st' = ends st
}.

(** What any number of calls of [remove], thrown or not, leave in place. *)
Record touched (st st' : instance) : Prop := Touched {
  t_closed : _closed st' = _closed st;
  t_sources : exists p, _sources st' = filter p (_sources st);
  t_objectMode : objectMode st' = objectMode st;
  t_maxListeners : maxListeners st' = maxListeners st;
  t_readable : readable st' = readable st;
  t_ending : ending st = true -> ending st' = true;
  t_flowing : flowing st' = flowing st;
  t_immediates : immediates st' = immediates st;
  t_ends : ends st' = ends st
}.

(** ** Values *)

Section ValueInduction.
Variable P : value -> Prop.
Hypothesis HUndefined : P VUndefined.
Hypothesis HNull : P VNull.
Hypothesis HBool : forall b, P (VBool b).
Hypothesis HNum : forall n, P (VNum n).
Hypothesis HStr : forall s, P (VStr s).
Hypothesis HObject : forall a u m, P (VObject a u m).
Hypothesis HReadable : forall a, P (VReadable a).
Hypothesis HArray : forall a items, Forall P items -> P (VArray a items).

Fixpoint value_nested_ind (v : value) : P v :=
  match v with
  | VUndefined => HUndefined
  | VNull => HNull
  | VBool b => HBool b
  | VNum n => HNum n
  | VStr s => HStr s
  | VObject a u m => HObject a u m
  | VReadable a => HReadable a
  | VArray a items =>
      HArray a items
        ((fix all (l : list value) : Forall P l :=
            match l with
            | [] => Forall_nil P
            | x :: l' => Forall_cons x (value_nested_ind x) (all l')
            end) items)
  end.
End ValueInduction.

Lemma strict_eq_refl : forall v, strict_eq v v = true.
Proof.
  destruct v; simpl; auto using Bool.eqb_reflx, Z.eqb_refl, String.eqb_refl,
    Nat.eqb_refl.
Qed.


Lemma readable_has_unpipe : forall v,
  isReadableStream v = true -> has_unpipe v = true.
Proof. destruct v; simpl; intros; congruence. Qed.

Lemma isReadableStream_inv : forall v,
  isReadableStream v = true -> exists a, v = VReadable a.
Proof. destruct v; simpl; intros; try discriminate. eauto. Qed.

(** ** What [remove] does to an instance *)

Lemma filter_twice : forall (A : Type) (p : A -> bool) l,
  filter p (filter p l) = filter p l.
Proof.
  induction l as [|x l IH]; simpl; auto.
  destruct (p x) eqn:E; simpl; rewrite ?E, IH; auto.
Qed.

Lemma remove_body_removal : forall source st,
  removal source st (remove_body source st).
Proof.
  intros source st. unfold remove_body.
  destruct st as [c s o m r e p pi el im em]; simpl.
  destruct (List.length _ =? 0) eqn:L; destruct r; simpl;
    constructor; simpl; rewrite ?L; auto; destruct e; auto.
Qed.

Lemma removal_trans : forall source st1 st2 st3,
  removal source st1 st2 -> removal source st2 st3 -> removal source st1 st3.
Proof.
  intros source st1 st2 st3 [] [].
  constructor; try congruence.
  - rewrite rm_sources1, rm_sources0. apply filter_twice.
  - rewrite rm_ending1, rm_ending0, rm_sources0, rm_readable0, filter_twice.
    destruct (ending st1), (_ =? 0), (readable st1); reflexivity.
Qed.

Lemma ends_emit : forall e st,
  ends (emit e st) = ends st + (if is_end e then 1 else 0).
Proof.
  intros e st. unfold ends, emit; simpl.
  rewrite filter_app, length_app. simpl. destruct (is_end e); reflexivity.
Qed.

Lemma remove_piped_removal : forall k source st,
  removal source st (remove_piped k source st).
Proof.
  induction k as [|k IH]; intros source st; simpl.
  - apply remove_body_removal.
  - eapply removal_trans; [|apply remove_body_removal].
    specialize (IH source (emit (EUnpipe source)
                             (set_pipes (splice_first source (pipes st)) st))).
    destruct IH. constructor; auto.
    rewrite rm_ends0, ends_emit. simpl. unfold ends. simpl. lia.
Qed.

Lemma remove_ok : forall st source,
  has_unpipe source = true ->
  snd (remove st source) = Return This /\
  removal source st (fst (remove st source)).
Proof.
  intros st source H. unfold remove. rewrite H. simpl.
  split; [reflexivity | apply remove_piped_removal].
Qed.

Lemma remove_throws : forall st source,
  has_unpipe source = false -> remove st source = (st, Throw TypeError).
Proof. intros st source H. unfold remove. now rewrite H. Qed.

Lemma filter_all : forall (A : Type) (l : list A),
  filter (fun _ => true) l = l.
Proof. induction l; simpl; congruence. Qed.

Lemma filter_filter : forall (A : Type) (p q : A -> bool) l,
  filter p (filter q l) = filter (fun x => q x && p x) l.
Proof.
  induction l as [|x l IH]; simpl; auto.
  destruct (q x); simpl; [destruct (p x)|]; rewrite IH; auto.
Qed.

Lemma touched_refl : forall st, touched st st.
Proof.
  intros st. constructor; auto.
  exists (fun _ => true). symmetry. apply filter_all.
Qed.

Lemma touched_trans : forall st1 st2 st3,
  touched st1 st2 -> touched st2 st3 -> touched st1 st3.
Proof.
  intros st1 st2 st3 [? [p Hp] ? ? ? ? ? ? ?] [? [q Hq] ? ? ? ? ? ? ?].
  constructor; try congruence; auto.
  exists (fun x => p x && q x). rewrite Hq, Hp. apply filter_filter.
Qed.

Lemma removal_touched : forall source st st',
  removal source st st' -> touched st st'.
Proof.
  intros source st st' []. constructor; auto.
  - eauto.
  - intros E. rewrite rm_ending0, E. reflexivity.
Qed.

Lemma remove_touched : forall st source,
  touched st (fst (remove st source)).
Proof.
  intros st source. destruct (has_unpipe source) eqn:H.
  - eapply removal_touched. apply remove_ok, H.
  - rewrite remove_throws by exact H. apply touched_refl.
Qed.

Lemma forEach_remove_touched : forall l st,
  touched st (fst (forEach remove l st)).
Proof.
  induction l as [|a l IH]; intros st; simpl.
  - apply touched_refl.
  - pose proof (remove_touched st a) as T.
    destruct (remove st a) as [st' [r|e]]; simpl in *; auto.
    eapply touched_trans; eauto.
Qed.

Lemma touched_inv : forall st st', inv st -> touched st st' -> inv st'.
Proof.
  intros st st' [Is Ie Ig Ic] [Tc [p Hp] To Tm Tr Te Tp Ti Tn].
  constructor.
  - rewrite Hp. apply Forall_forall. intros x Hx.
    apply filter_In in Hx. destruct Hx as [Hx _].
    eapply Forall_forall in Is; eauto.
  - rewrite Tn, Tr. exact Ie.
  - intros E. apply Te, Ig. congruence.
  - intros E. rewrite Hp, Ic by congruence. reflexivity.
Qed.

(** ** [clear] *)

(** [forEach remove] over sources that all have [unpipe] goes through, and
    empties [_sources] of every one of them. *)
Lemma forEach_remove_ok : forall l st,
  Forall (fun v => has_unpipe v = true) l ->
  snd (forEach remove l st) = None /\
  _sources (fst (forEach remove l st)) =
    filter (fun item => forallb (fun s => negb (strict_eq item s)) l)
           (_sources st) /\
  (l <> [] -> readable st = true ->
   _sources (fst (forEach remove l st)) = [] ->
   ending (fst (forEach remove l st)) = true).
Proof.
  induction l as [|a l IH]; intros st Hl; simpl.
  - split; [reflexivity|]. split; [|congruence].
    symmetry. apply filter_all.
  - inversion Hl as [|? ? Ha Hl']; subst.
    destruct (remove_ok st a Ha) as [Hr Hrm].
    destruct (remove st a) as [st1 c]; simpl in *; subst c.
    destruct (IH st1 Hl') as (E1 & E2 & E3).
    destruct Hrm as [Rc Rs Ro Rm Rr Re Rp Rl Ri Rn].
    split; [exact E1|]. split.
    + rewrite E2, Rs. apply filter_filter.
    + intros _ Hread Hnil.
      destruct l as [|b l].
      * simpl in *. rewrite Re, <- Rs, Hnil, Hread.
        simpl. apply orb_true_r.
      * apply E3; auto; try discriminate.
        rewrite Rr. exact Hread.
Qed.

Lemma filter_out_self : forall l : list value,
  filter (fun item => forallb (fun s => negb (strict_eq item s)) l) l = [].
Proof.
  intros l.
  assert (G : forall l', incl l' l ->
    filter (fun item => forallb (fun s => negb (strict_eq item s)) l) l' = []).
  { induction l' as [|x l' IH]; intros Hi; simpl; auto.
    assert (Hx : forallb (fun s => negb (strict_eq x s)) l = false).
    { apply not_true_is_false. intros F.
      rewrite forallb_forall in F.
      specialize (F x (Hi x (or_introl eq_refl))).
      rewrite strict_eq_refl in F. discriminate. }
    rewrite Hx. apply IH. intros y Hy. apply Hi. now right. }
  apply G, incl_refl.
Qed.

Lemma Forall_readable_unpipe : forall l,
  Forall (fun v => isReadableStream v = true) l ->
  Forall (fun v => has_unpipe v = true) l.
Proof.
  intros l H. eapply Forall_impl; [|exact H].
  intros v. apply readable_has_unpipe.
Qed.

Lemma clear_ok : forall st,
  Forall (fun v => isReadableStream v = true) (_sources st) ->
  snd (clear st) = Return This /\
  _sources (fst (clear st)) = [] /\
  touched st (fst (clear st)) /\
  (_sources st <> [] -> readable st = true -> ending (fst (clear st)) = true).
Proof.
  intros st H. unfold clear.
  pose proof (forEach_remove_touched (_sources st) st) as T.
  destruct (forEach_remove_ok (_sources st) st (Forall_readable_unpipe _ H))
    as (E1 & E2 & E3).
  destruct (forEach remove (_sources st) st) as [st' [e|]]; simpl in *;
    try discriminate.
  rewrite filter_out_self in E2.
  split; [reflexivity|]. split; [exact E2|]. split; [exact T|].
  intros Hne Hr. apply E3; assumption.
Qed.

Lemma clear_touched : forall st, touched st (fst (clear st)).
Proof.
  intros st. unfold clear.
  pose proof (forEach_remove_touched (_sources st) st) as T.
  destruct (forEach remove (_sources st) st) as [st' [e|]]; exact T.
Qed.

(** ** [add] *)

Lemma add_eq : forall st source,
  add st source =
  if _closed st then (st, Throw ClosedError)
  else
    match source with
    | VArray _ items =>
        match forEach add items st with
        | (st', None) => (st', Return This)
        | (st', Some e) => (st', Throw e)
        end
    | _ =>
        if negb (isReadableStream source) then (st, Throw InvalidSourceError)
        else (register [source] st, Return This)
    end.
Proof. intros st source. destruct source; reflexivity. Qed.

Lemma add_closed : forall st source,
  _closed st = true -> add st source = (st, Throw ClosedError).
Proof. intros st source H. rewrite add_eq, H. reflexivity. Qed.

Lemma register_nil : forall st, register [] st = st.
Proof.
  intros st. destruct st. unfold register; simpl.
  now rewrite !app_nil_r.
Qed.

Lemma register_app : forall l1 l2 st,
  register (l1 ++ l2) st = register l2 (register l1 st).
Proof.
  intros l1 l2 st. unfold register; simpl.
  now rewrite map_app, !app_assoc.
Qed.

Lemma accepted_app : forall l1 l2,
  accepted (l1 ++ l2) =
  if forallb isReadableStream l1 then l1 ++ accepted l2 else accepted l1.
Proof.
  induction l1 as [|x l1 IH]; intros l2; simpl; auto.
  destruct (isReadableStream x); simpl; auto.
  rewrite IH. destruct (forallb isReadableStream l1); reflexivity.
Qed.

Lemma accepted_all : forall l,
  forallb isReadableStream l = true -> accepted l = l.
Proof.
  induction l as [|x l IH]; simpl; auto.
  destruct (isReadableStream x); simpl; intros H; try discriminate.
  now rewrite IH.
Qed.

Lemma accepted_readable : forall l,
  Forall (fun v => isReadableStream v = true) (accepted l).
Proof.
  induction l as [|x l IH]; simpl; auto.
  destruct (isReadableStream x) eqn:E; auto.
Qed.

(** What [add] does on an instance that is not closed: the readable streams
    that come before the first value that is not one are registered, and that
    value, if there is one, makes [add] throw. *)
Lemma add_open : forall source st,
  _closed st = false ->
  add st source =
  (register (accepted (leaves source)) st,
   if forallb isReadableStream (leaves source)
   then Return This else Throw InvalidSourceError).
Proof.
  induction source as [| | b | n | s | a u m | a | a items IH]
    using value_nested_ind; intros st Hc; rewrite add_eq, Hc;
    try (simpl; now rewrite register_nil).
  - reflexivity.
  - assert (G : forall st, _closed st = false ->
      forEach add items st =
      (register (accepted (flat_map leaves items)) st,
       if forallb isReadableStream (flat_map leaves items)
       then None else Some InvalidSourceError)).
    { clear st Hc. induction IH as [|x items Hx _ IHitems]; intros st Hc.
      - simpl. now rewrite register_nil.
      - simpl. rewrite (Hx st Hc), accepted_app, forallb_app.
        destruct (forallb isReadableStream (leaves x)) eqn:Ex; simpl.
        + rewrite IHitems by exact Hc.
          now rewrite register_app, (accepted_all _ Ex).
        + reflexivity. }
    rewrite (G st Hc). simpl.
    destruct (forallb isReadableStream (flat_map leaves items)); reflexivity.
Qed.

Lemma register_inv : forall l st,
  inv st -> _closed st = false ->
  Forall (fun v => isReadableStream v = true) l ->
  inv (register l st).
Proof.
  intros l st [Is Ie Ig Ic] Hc Hl.
  constructor; simpl; auto.
  - apply Forall_app. split; assumption.
  - congruence.
Qed.

Lemma add_inv : forall st source, inv st -> inv (fst (add st source)).
Proof.
  intros st source I. destruct (_closed st) eqn:Hc.
  - now rewrite add_closed.
  - rewrite add_open by exact Hc. simpl.
    apply register_inv; auto using accepted_readable.
Qed.

Lemma forEach_add_inv : forall items st,
  inv st -> inv (fst (forEach add items st)).
Proof.
  induction items as [|x items IH]; intros st I; simpl; auto.
  pose proof (add_inv st x I) as I'.
  destruct (add st x) as [st' [r|e]]; simpl in *; auto.
Qed.

(** ** [close], the event loop and the sources *)

Lemma close_closed : forall st, _closed (fst (close st)) = true.
Proof.
  intros st. unfold close. destruct (_closed st) eqn:Hc; simpl; auto.
  pose proof (clear_touched (set_closed true st)) as [Tc _ _ _ _ _ _ _ _].
  destruct (clear (set_closed true st)) as [st2 [r|e]]; simpl in *; auto.
Qed.

Lemma close_inv : forall st, inv st -> inv (fst (close st)).
Proof.
  intros st I. unfold close. destruct (_closed st) eqn:Hc; simpl; auto.
  destruct I as [Is Ie Ig Ic].
  destruct (clear_ok (set_closed true st) Is) as (Er & Es & T & _).
  destruct T as [Tc _ To Tm Tr Te Tp Ti Tn].
  destruct (clear (set_closed true st)) as [st2 c]; simpl in *; subst c.
  constructor; simpl.
  - rewrite Es. constructor.
  - change (ends (setImmediate CloseTask st2)) with (ends st2).
    rewrite Tn, Tr. exact Ie.
  - intros E. apply Te, Ig. congruence.
  - intros _. exact Es.
Qed.

Lemma source_end_touched : forall st source,
  touched st (fst (source_end st source)).
Proof.
  intros st source. unfold source_end.
  match goal with
  | |- context [forEach remove ?l ?s] =>
      pose proof (forEach_remove_touched l s) as T;
      destruct (forEach remove l s) as [st' [e|]]
  end; simpl in *;
    (eapply touched_trans; [|exact T]); constructor; simpl; auto;
    exists (fun _ => true); symmetry; apply filter_all.
Qed.

(** [source.unpipe(this)], and what the ['close'] event does with the
    pipes. *)
Lemma unpipe_touched : forall source st, touched st (unpipe source st).
Proof.
  intros source st. unfold unpipe. destruct (piped source st) as [|k].
  - apply touched_refl.
  - eapply touched_trans;
      [|eapply removal_touched, remove_piped_removal].
    constructor; simpl; auto.
    + exists (fun _ => true). symmetry. apply filter_all.
    + rewrite ends_emit. simpl. unfold ends. simpl. lia.
Qed.

Lemma unpipes_touched : forall l st,
  touched st (fold_left (fun s source => unpipe source s) l st).
Proof.
  induction l as [|a l IH]; intros st; simpl.
  - apply touched_refl.
  - eapply touched_trans; [apply unpipe_touched | apply IH].
Qed.

Lemma unpipe_end_listeners : forall source st,
  end_listeners (unpipe source st) = end_listeners st.
Proof.
  intros source st. unfold unpipe. destruct (piped source st) as [|k]; auto.
  destruct (remove_piped_removal k source
              (emit (EUnpipe source)
                    (set_pipes (splice_first source (pipes st)) st)))
    as [_ _ _ _ _ _ _ Rl _ _].
  exact Rl.
Qed.

Lemma unpipes_end_listeners : forall l st,
  end_listeners (fold_left (fun s source => unpipe source s) l st) =
  end_listeners st.
Proof.
  induction l as [|a l IH]; intros st; simpl; auto.
  rewrite IH. apply unpipe_end_listeners.
Qed.

(** What a callback of the queue leaves in place. *)
Lemma run_task_frame : forall t st,
  _closed (run_task t st) = _closed st /\
  (exists p, _sources (run_task t st) = filter p (_sources st)) /\
  readable (run_task t st) = readable st /\
  (ending st = true -> ending (run_task t st) = true) /\
  (flowing st = false -> flowing (run_task t st) = false) /\
  immediates (run_task t st) = immediates st /\
  end_listeners (run_task t st) = end_listeners st /\
  ends (run_task t st) = ends st /\
  (ending st && readable st && flowing st = false ->
   ending (run_task t st) && readable (run_task t st) &&
   flowing (run_task t st) = false).
Proof.
  intros t st. destruct t as [source|].
  - simpl. repeat split; auto.
    + exists (fun _ => true). symmetry. apply filter_all.
    + rewrite ends_emit. simpl. unfold ends. simpl. lia.
  - unfold run_task.
    destruct (unpipes_touched (pipes st) (emit EClose (pause st)))
      as [Tc Ts To Tm Tr Te Tf Ti Tn].
    rewrite unpipes_end_listeners.
    rewrite Tc, Tr, Tf, Ti, Tn. simpl.
    repeat split; auto.
    + rewrite ends_emit. simpl. unfold ends. simpl. lia.
    + intros _. now rewrite !andb_false_r.
Qed.

Lemma ends_flush_end : forall st,
  ends (flush_end st) =
  ends st + (if ending st && readable st && flowing st then 1 else 0).
Proof.
  intros st. unfold flush_end.
  destruct (ending st && readable st && flowing st).
  - rewrite ends_emit. reflexivity.
  - lia.
Qed.

Lemma flush_end_quiet : forall st,
  ending (flush_end st) && readable (flush_end st) &&
  flowing (flush_end st) = false.
Proof.
  intros st. unfold flush_end.
  destruct (ending st && readable st && flowing st) eqn:E; auto.
  simpl. now rewrite andb_false_r.
Qed.

Lemma flush_end_settled : forall st,
  ending st && readable st && flowing st = false -> flush_end st = st.
Proof. intros st H. unfold flush_end. now rewrite H. Qed.

(** A queue of callbacks run on a stream that has settled: the stream stays
    settled, and no ['end'] is emitted. *)
Lemma tasks_quiet : forall tasks st,
  ending st && readable st && flowing st = false ->
  let st' := fold_left (fun s t => flush_end (run_task t s)) tasks st in
  ends st' = ends st /\ readable st' = readable st /\
  (ending st = true -> ending st' = true) /\
  _closed st' = _closed st /\
  (exists p, _sources st' = filter p (_sources st)) /\
  immediates st' = immediates st /\
  end_listeners st' = end_listeners st /\
  (flowing st = false -> flowing st' = false) /\
  ending st' && readable st' && flowing st' = false.
Proof.
  induction tasks as [|t tasks IH]; intros st Hq; simpl.
  - repeat split; auto.
    exists (fun _ => true). symmetry. apply filter_all.
  - destruct (run_task_frame t st)
      as (Fc & [p Fs] & Fr & Fe & Ff & Fi & Fl & Fn & Fq).
    specialize (Fq Hq). rewrite (flush_end_settled _ Fq).
    destruct (IH (run_task t st) Fq)
      as (A & B & C & D & [q E] & F & G & H & Q).
    rewrite A, B, D, F, G, Fc, Fr, Fi, Fl, Fn.
    split; [reflexivity|]. split; [reflexivity|].
    split; [intros X; apply C, Fe, X|]. split; [reflexivity|].
    split.
    { exists (fun x => p x && q x). rewrite E, Fs. apply filter_filter. }
    split; [reflexivity|]. split; [reflexivity|].
    split; [intros X; apply H, Ff, X|].
    rewrite <- Fr, <- B. exact Q.
Qed.

Lemma ends_turn : forall st,
  ends (turn st) =
  ends st + (if ending st && readable st && flowing st then 1 else 0).
Proof.
  intros st. unfold turn.
  pose proof (tasks_quiet (immediates (flush_end st))
                (set_immediates [] (flush_end st)) (flush_end_quiet st)) as H.
  simpl in H. destruct H as (A & _). rewrite A.
  apply ends_flush_end.
Qed.

Lemma flush_end_frame : forall st,
  _closed (flush_end st) = _closed st /\
  _sources (flush_end st) = _sources st /\
  ending (flush_end st) = ending st /\
  flowing (flush_end st) = flowing st /\
  immediates (flush_end st) = immediates st /\
  end_listeners (flush_end st) = end_listeners st /\
  pipes (flush_end st) = pipes st.
Proof.
  intros st. unfold flush_end.
  destruct (ending st && readable st && flowing st); simpl; repeat split.
Qed.

(** What one turn of the event loop leaves in place. *)
Lemma turn_frame : forall st,
  _closed (turn st) = _closed st /\
  (exists p, _sources (turn st) = filter p (_sources st)) /\
  (ending st = true -> ending (turn st) = true) /\
  immediates (turn st) = [] /\
  end_listeners (turn st) = end_listeners st /\
  readable (turn st) = readable (flush_end st) /\
  (flowing st = false -> flowing (turn st) = false) /\
  ending (turn st) && readable (turn st) && flowing (turn st) = false.
Proof.
  intros st. unfold turn.
  pose proof (tasks_quiet (immediates (flush_end st))
                (set_immediates [] (flush_end st)) (flush_end_quiet st)) as H.
  simpl in H. destruct H as (_ & B & C & D & E & F & G & H & Q).
  destruct (flush_end_frame st) as (Fc & Fs & Fe & Ff & _ & Fl & _).
  rewrite Fs in E. rewrite Fe in C. rewrite Ff in H.
  split; [now rewrite D|]. split; [exact E|]. split; [exact C|].
  split; [exact F|]. split; [now rewrite G|]. split; [exact B|].
  split; [exact H | exact Q].
Qed.

Lemma flush_end_inv : forall st, inv st -> inv (flush_end st).
Proof.
  intros st I. unfold flush_end.
  destruct (ending st && readable st && flowing st) eqn:E; auto.
  apply andb_prop in E. destruct E as [E _].
  apply andb_prop in E. destruct E as [Eg Er].
  destruct I as [Is Ie Ig Ic].
  constructor; simpl; auto.
  rewrite ends_emit. simpl. unfold ends in *. simpl. rewrite Ie, Er.
  reflexivity.
Qed.

Lemma read_inv : forall st, inv st -> inv (read st).
Proof.
  intros st I. unfold read.
  destruct (ending st && readable st) eqn:E; auto.
  apply andb_prop in E. destruct E as [Eg Er].
  destruct I as [Is Ie Ig Ic].
  constructor; simpl; auto.
  rewrite ends_emit. simpl. unfold ends in *. simpl. rewrite Ie, Er.
  reflexivity.
Qed.

Lemma turn_inv : forall st, inv st -> inv (turn st).
Proof.
  intros st I.
  destruct (turn_frame st) as (Tc & [p Ts] & Te & _ & _ & Tr & _ & _).
  pose proof (ends_turn st) as Tn.
  pose proof (flush_end_inv st I) as [_ Ie' Ig' _].
  rewrite ends_flush_end in Ie'.
  destruct (flush_end_frame st) as (_ & _ & Fe & _).
  destruct I as [Is Ie Ig Ic].
  constructor.
  - rewrite Ts. apply Forall_forall. intros x Hx.
    apply filter_In in Hx. destruct Hx as [Hx _].
    eapply Forall_forall in Is; eauto.
  - rewrite Tn, Tr. exact Ie'.
  - rewrite Tr. intros E. apply Te. rewrite <- Fe. apply Ig', E.
  - rewrite Tc, Ts. intros E. now rewrite (Ic E).
Qed.

Lemma step_inv : forall st a, inv st -> inv (fst (step st a)).
Proof.
  intros st a I. destruct a; simpl.
  - apply add_inv, I.
  - eapply touched_inv; [exact I | apply remove_touched].
  - eapply touched_inv; [exact I | apply clear_touched].
  - apply close_inv, I.
  - eapply touched_inv; [exact I | apply source_end_touched].
  - apply turn_inv, I.
  - apply flush_end_inv, I.
  - destruct I. constructor; assumption.
  - destruct I. constructor; assumption.
  - apply read_inv, I.
Qed.

Lemma run_inv : forall acts st, inv st -> inv (run st acts).
Proof.
  induction acts as [|a acts IH]; intros st I; simpl; auto.
  apply IH, step_inv, I.
Qed.

Lemma empty_instance_inv : forall m,
  inv (Instance false [] true m true false false [] [] [] []).
Proof.
  intros m. constructor; simpl; auto; try discriminate; try tauto.
Qed.

Lemma construct_inv : forall streams options,
  inv (fst (construct streams options)).
Proof.
  intros streams options. unfold construct.
  destruct (if isReadableStream streams then _ else _) as [streams1 options1].
  destruct (if truthy streams1 then streams1 else VArray 0 []);
    simpl; try apply empty_instance_inv.
  match goal with
  | |- context [forEach add ?l ?s] =>
      pose proof (forEach_add_inv l s (empty_instance_inv _)) as I;
      destruct (forEach add l s) as [st' [e|]]
  end; exact I.
Qed.

Lemma reachable_inv : forall st, reachable st -> inv st.
Proof.
  induction 1 as [with_new streams options st r H | st a _ IH].
  - unfold Concat in H.
    destruct (negb with_new);
      match type of H with
      | construct ?s ?o = _ => pose proof (construct_inv s o) as I
      end; rewrite H in I; exact I.
  - apply step_inv, IH.
Qed.

(** ['end'] is never taken back. *)
Lemma ends_step : forall st a, ends st <= ends (fst (step st a)).
Proof.
  intros st a. destruct a; simpl.
  - destruct (_closed st) eqn:Hc.
    + rewrite add_closed by exact Hc. simpl. lia.
    + rewrite add_open by exact Hc. simpl. unfold ends. simpl. lia.
  - destruct (remove_touched st source). lia.
  - destruct (clear_touched st). lia.
  - unfold close. destruct (_closed st); simpl; auto.
    pose proof (clear_touched (set_closed true st)) as [].
    destruct (clear (set_closed true st)) as [st2 [r|e]]; simpl in *;
      unfold ends in *; simpl in *; lia.
  - destruct (source_end_touched st source). lia.
  - rewrite ends_turn. lia.
  - rewrite ends_flush_end. lia.
  - unfold ends. simpl. lia.
  - unfold ends. simpl. lia.
  - unfold read. destruct (ending st && readable st); [|lia].
    rewrite ends_emit. unfold ends. simpl. lia.
Qed.

Lemma ends_run : forall acts st, ends st <= ends (run st acts).
Proof.
  induction acts as [|a acts IH]; intros st; simpl; auto.
  eapply Nat.le_trans; [apply ends_step | apply IH].
Qed.

Lemma inv_ends_le : forall st, inv st -> ends st <= 1.
Proof.
  intros st [_ Ie _ _]. rewrite Ie. destruct (readable st); lia.
Qed.

(** Once ['end'] has been emitted, it has been emitted exactly once whatever
    happens next. *)
Lemma ends_once_forever : forall st acts,
  inv st -> ends st = 1 -> ends (run st acts) = 1.
Proof.
  intros st acts I E.
  pose proof (ends_run acts st). pose proof (inv_ends_le _ (run_inv acts st I)).
  lia.
Qed.

(** After [end()], one turn of the event loop has ['end'] emitted once on a
    stream that is read. *)
Lemma ends_after_end : forall st,
  inv st -> ending st = true -> flowing st = true -> ends (turn st) = 1.
Proof.
  intros st [_ Ie _ _] Eg Ef. rewrite ends_turn, Ie, Eg, Ef.
  destruct (readable st); reflexivity.
Qed.

Lemma step_closed : forall st a,
  _closed st = true -> _closed (fst (step st a)) = true.
Proof.
  intros st a Hc. destruct a; simpl; auto.
  - now rewrite add_closed.
  - destruct (remove_touched st source). congruence.
  - destruct (clear_touched st). congruence.
  - apply close_closed.
  - destruct (source_end_touched st source). congruence.
  - destruct (turn_frame st) as (E & _). congruence.
  - destruct (flush_end_frame st) as (E & _). congruence.
  - unfold read. destruct (ending st && readable st); auto.
Qed.

Lemma run_closed : forall acts st,
  _closed st = true -> _closed (run st acts) = true.
Proof.
  induction acts as [|a acts IH]; intros st Hc; simpl; auto.
  apply IH, step_closed, Hc.
Qed.

Lemma filter_nonmember : forall source l,
  existsb (fun item => strict_eq item source) l = false ->
  filter (fun item => negb (strict_eq item source)) l = l.
Proof.
  induction l as [|x l IH]; simpl; auto.
  intros H. apply orb_false_elim in H. destruct H as [Hx Hl].
  rewrite Hx. simpl. now rewrite IH.
Qed.

Lemma filter_only_member : forall source l,
  Forall (fun item => strict_eq item source = true) l ->
  filter (fun item => negb (strict_eq item source)) l = [].
Proof.
  induction 1 as [|x l Hx _ IH]; simpl; auto.
  now rewrite Hx.
Qed.

Lemma close_sources : forall st,
  exists p, _sources (fst (close st)) = filter p (_sources st).
Proof.
  intros st. unfold close. destruct (_closed st); simpl.
  - exists (fun _ => true). symmetry. apply filter_all.
  - pose proof (clear_touched (set_closed true st)) as [_ [p Hp] _ _ _ _ _ _ _].
    destruct (clear (set_closed true st)) as [st2 [r|e]]; simpl in *; eauto.
Qed.

(** A stream that nothing reads emits no ['end'], however often the event
    loop turns. *)
Lemma not_flowing_turns : forall n st,
  flowing st = false ->
  ends (Nat.iter n turn st) = ends st /\ flowing (Nat.iter n turn st) = false.
Proof.
  induction n as [|n IH]; intros st H; simpl; auto.
  destruct (IH st H) as [A B].
  destruct (turn_frame (Nat.iter n turn st)) as (_ & _ & _ & _ & _ & _ & F & _).
  rewrite ends_turn, B, andb_false_r. split; [lia | apply F, B].
Qed.

(** A call that returns returns the instance, but for [close] on a closed
    instance. *)
Lemma methods_chain : forall st source r,
  (snd (add st source) = Return r -> r = This) /\
  (snd (remove st source) = Return r -> r = This) /\
  (snd (clear st) = Return r -> r = This) /\
  (_closed st = false -> snd (close st) = Return r -> r = This).
Proof.
  intros st source r. split; [|split; [|split]].
  - rewrite add_eq. destruct (_closed st); simpl; [discriminate|].
    destruct source; simpl; try discriminate; try congruence.
    destruct (forEach add items st) as [st' [e|]]; simpl; congruence.
  - unfold remove. destruct (has_unpipe source); simpl; congruence.
  - unfold clear.
    destruct (forEach remove (_sources st) st) as [st' [e|]]; simpl;
      congruence.
  - intros Hc. unfold close. rewrite Hc.
    destruct (clear (set_closed true st)) as [st2 [r'|e]]; simpl; congruence.
Qed.

(** * The claims *)


Lemma reachable_resume : forall st, reachable st -> reachable (resume st).
Proof. intros st R. apply (reach_step st Resume), R. Qed.

Lemma reachable_turn : forall st, reachable st -> reachable (turn st).
Proof. intros st R. apply (reach_step st Turn), R. Qed.

Lemma turn_readable : forall st, readable (turn st) = readable (flush_end st).
Proof.
  intros st. destruct (turn_frame st) as (_ & _ & _ & _ & _ & B & _).
  exact B.
Qed.

Lemma flush_end_ended : forall st, readable st = false -> flush_end st = st.
Proof.
  intros st H. apply flush_end_settled. rewrite H.
  now rewrite andb_false_r.
Qed.

(** What a step does to a stream that has ended. *)
Lemma step_ended : forall st a,
  readable st = false ->
  readable (fst (step st a)) = false /\ ends (fst (step st a)) = ends st.
Proof.
  intros st a H. destruct a; simpl; auto.
  - destruct (_closed st) eqn:Hc.
    + rewrite add_closed by exact Hc. auto.
    + rewrite add_open by exact Hc. auto.
  - destruct (remove_touched st source) as [_ _ _ _ Tr _ _ _ Tn].
    split; congruence.
  - destruct (clear_touched st) as [_ _ _ _ Tr _ _ _ Tn].
    split; congruence.
  - unfold close. destruct (_closed st); simpl; auto.
    destruct (clear_touched (set_closed true st)) as [_ _ _ _ Tr _ _ _ Tn].
    change (ends (set_closed true st)) with (ends st) in Tn.
    destruct (clear (set_closed true st)) as [st2 [r|e]]; simpl in *;
      try change (ends (setImmediate CloseTask st2)) with (ends st2);
      split; congruence.
  - destruct (source_end_touched st source) as [_ _ _ _ Tr _ _ _ Tn].
    split; congruence.
  - rewrite turn_readable, ends_turn, flush_end_ended, H by exact H.
    rewrite andb_false_r. simpl. split; [reflexivity | lia].
  - rewrite flush_end_ended by exact H. auto.
  - unfold read. rewrite H, andb_false_r. auto.
Qed.

Lemma run_ended : forall acts st,
  readable st = false ->
  readable (run st acts) = false /\ ends (run st acts) = ends st.
Proof.
  induction acts as [|a acts IH]; intros st H; simpl; auto.
  destruct (step_ended st a H) as [Hr He].
  destruct (IH (fst (step st a)) Hr) as [A B].
  split; congruence.
Qed.

Lemma empty_instance_reachable : reachable empty_instance.
Proof.
  apply (reach_new true VUndefined VUndefined empty_instance This).
  reflexivity.
Qed.

Lemma one_source_reachable : reachable one_source.
Proof.
  apply (reach_new true (VReadable 1) VUndefined one_source This).
  reflexivity.
Qed.

Lemma three_entries_reachable : reachable three_entries.
Proof.
  apply (reach_new true (VArray 0 [VReadable 1; VReadable 2; VReadable 1])
           VUndefined three_entries This).
  reflexivity.
Qed.

(** C1.  The claim: for an instance constructed with no source, [close()]
    has ['end'] emitted once and then ['close'] once.  What [index.js] does:
    [close] goes through [clear], [clear] calls [remove] for each member of
    [_sources], and [end()] is only ever called from [remove].  With no
    member, [end()] is not called: the turn of the event loop that runs the
    queued callback emits ['close'] and nothing else, and no later turn
    emits ['end']. *)
Theorem close_without_sources_emits_no_end :
  Concat true VUndefined VUndefined = (empty_instance, Return This) /\
  snd (close empty_instance) = Return This /\
  ending (fst (close empty_instance)) = false /\
  emitted (turn (fst (close empty_instance))) = [EClose] /\
  forall n, ends (Nat.iter n turn (fst (close empty_instance))) = 0.
Proof.
  repeat split.
  intros n.
  destruct (not_flowing_turns n (fst (close empty_instance)) eq_refl) as [E _].
  exact E.
Qed.

(** C2, as the specification has it, fails: on the instance [new Concat()]
    returns, which has no sources and is readable, [remove] of a stream that
    was never added calls [end()].  If a consumer reads the stream, ['end']
    is emitted in the next turn of the event loop, which would have emitted
    nothing without the call. *)
Lemma remove_nonmember_counterexample :
  reachable (resume empty_instance) /\
  member (VReadable 1) (resume empty_instance) = false /\
  snd (remove (resume empty_instance) (VReadable 1)) = Return This /\
  ending (resume empty_instance) = false /\
  ending (fst (remove (resume empty_instance) (VReadable 1))) = true /\
  ends (turn (resume empty_instance)) = 0 /\
  ends (turn (fst (remove (resume empty_instance) (VReadable 1)))) = 1.
Proof.
  split; [apply reachable_resume, empty_instance_reachable|].
  repeat split.
Qed.

(** C2, amended.  For a value that has an [unpipe] method and is not a member
    of [_sources], [remove] returns the instance and leaves [_sources] as it
    is.  As long as [_sources] is not empty, or the stream is no longer
    readable, [end()] is not called and the next turn of the event loop emits
    ['end'] no more often than it would have; if the value has no pipe into
    the instance either, the instance is left exactly as it was.  On an
    instance with empty [_sources] that is still readable, [end()] is
    called: the next turn of the event loop emits ['end'] if the stream is
    read in flowing mode, and does not if it is not. *)
Theorem remove_nonmember :
  forall st source,
    has_unpipe source = true ->
    member source st = false ->
    snd (remove st source) = Return This /\
    _sources (fst (remove st source)) = _sources st /\
    (_sources st <> [] \/ readable st = false ->
     ending (fst (remove st source)) = ending st /\
     ends (turn (fst (remove st source))) = ends (turn st) /\
     (piped source st = 0 -> fst (remove st source) = st)) /\
    (_sources st = [] -> readable st = true ->
     ending (fst (remove st source)) = true /\
     (flowing st = true ->
      ends (turn (fst (remove st source))) = ends st + 1) /\
     (flowing st = false ->
      ends (turn (fst (remove st source))) = ends st)).
Proof.
  intros st source Hu Hm.
  destruct (remove_ok st source Hu) as [Hr [Rc Rs Ro Rm Rr Re Rp Rl Ri Rn]].
  unfold member in Hm. rewrite (filter_nonmember _ _ Hm) in Rs, Re.
  split; [exact Hr|]. split; [exact Rs|]. split.
  - intros Hq.
    assert (Hg : (List.length (_sources st) =? 0) && readable st = false).
    { destruct Hq as [Hq|Hq].
      - destruct (_sources st); [congruence | reflexivity].
      - rewrite Hq. apply andb_false_r. }
    rewrite Hg, orb_false_r in Re.
    split; [exact Re|]. split.
    + rewrite !ends_turn, Rn, Re, Rr, Rp. reflexivity.
    + intros Hp. unfold remove. rewrite Hu, Hp. simpl.
      unfold remove_body. simpl.
      rewrite (filter_nonmember _ _ Hm), Hg.
      destruct st; reflexivity.
  - intros Hs Hread.
    assert (Eg : ending (fst (remove st source)) = true).
    { rewrite Re, Hs, Hread. apply orb_true_r. }
    split; [exact Eg|].
    split; intros Hf; rewrite ends_turn, Rn, Eg, Rr, Rp, Hread, Hf; simpl; lia.
Qed.

Lemma remove_nonmember_witness :
  has_unpipe (VReadable 2) = true /\
  member (VReadable 2) one_source = false /\
  snd (remove one_source (VReadable 2)) = Return This /\
  _sources (fst (remove one_source (VReadable 2))) = _sources one_source /\
  fst (remove one_source (VReadable 2)) = one_source /\
  member (VReadable 2) (resume empty_instance) = false /\
  ends (turn (fst (remove (resume empty_instance) (VReadable 2)))) =
    ends (resume empty_instance) + 1.
Proof.
  split; [reflexivity|]. split; [reflexivity|].
  destruct (remove_nonmember one_source (VReadable 2) eq_refl eq_refl)
    as (A & B & C & _).
  destruct (remove_nonmember (resume empty_instance) (VReadable 2)
              eq_refl eq_refl) as (_ & _ & _ & D).
  split; [exact A|]. split; [exact B|]. split.
  - apply C; [left; discriminate | reflexivity].
  - split; [reflexivity|].
    destruct (D eq_refl eq_refl) as (_ & E & _). apply E. reflexivity.
Defined.

(** C3, as the specification has it, fails: [add] walks the sequence with
    [forEach], and the exception thrown for an invalid element ends the walk.
    The stream that follows the invalid element is not registered. *)
Lemma add_batch_counterexample :
  snd (add empty_instance (VArray 9 [VNull; VReadable 1])) =
    Throw InvalidSourceError /\
  member (VReadable 1)
         (fst (add empty_instance (VArray 9 [VNull; VReadable 1]))) = false /\
  fst (add empty_instance (VArray 9 [VNull; VReadable 1])) = empty_instance /\
  member (VReadable 1) (fst (add empty_instance (VReadable 1))) = true.
Proof. repeat split. Qed.

(** C3, amended.  On an instance that is not closed, [add] validates the
    elements of a sequence one by one, in order.  A value that is neither an
    array nor a readable stream fails with [InvalidSourceError] and changes
    nothing.  In a sequence, the streams before the first such value are
    registered, the value itself registers nothing, and the elements after it
    are not looked at: the call throws [InvalidSourceError].  A sequence of
    readable streams is registered whole. *)
Theorem add_batch_stops_at_first_invalid :
  forall st,
    _closed st = false ->
    (forall bad,
        isArray bad = false -> isReadableStream bad = false ->
        add st bad = (st, Throw InvalidSourceError)) /\
    (forall a before bad after,
        Forall (fun v => isReadableStream v = true) before ->
        isArray bad = false -> isReadableStream bad = false ->
        add st (VArray a (before ++ bad :: after)) =
        (register before st, Throw InvalidSourceError)) /\
    (forall a items,
        Forall (fun v => isReadableStream v = true) items ->
        add st (VArray a items) = (register items st, Return This)).
Proof.
  intros st Hc.
  assert (L : forall l, Forall (fun v => isReadableStream v = true) l ->
                        flat_map leaves l = l).
  { induction 1 as [|x l Hx _ IH]; simpl; auto.
    destruct (isReadableStream_inv x Hx) as [n ->]. simpl. now rewrite IH. }
  assert (B : forall bad, isArray bad = false -> leaves bad = [bad]).
  { destruct bad; simpl; intros; congruence. }
  assert (F : forall l, Forall (fun v => isReadableStream v = true) l ->
                        forallb isReadableStream l = true).
  { intros l H. apply forallb_forall. apply Forall_forall. exact H. }
  split; [|split].
  - intros bad Ha Hr. rewrite add_open by exact Hc.
    rewrite (B bad Ha). simpl. rewrite Hr. simpl. now rewrite register_nil.
  - intros a before bad after Hb Ha Hr. rewrite add_open by exact Hc.
    simpl. rewrite flat_map_app. simpl. rewrite (L before Hb), (B bad Ha).
    rewrite accepted_app, forallb_app, (F before Hb). simpl. rewrite Hr.
    simpl. now rewrite app_nil_r.
  - intros a items Hi. rewrite add_open by exact Hc.
    simpl. rewrite (L items Hi), (F items Hi), (accepted_all _ (F items Hi)).
    reflexivity.
Qed.

Lemma add_batch_stops_at_first_invalid_witness :
  _closed one_source = false /\
  add one_source (VNull) = (one_source, Throw InvalidSourceError) /\
  add one_source (VArray 9 ([VReadable 2] ++ VNull :: [VReadable 3])) =
  (register [VReadable 2] one_source, Throw InvalidSourceError) /\
  add one_source (VArray 9 [VReadable 2; VReadable 3]) =
  (register [VReadable 2; VReadable 3] one_source, Return This).
Proof.
  split; [reflexivity|].
  destruct (add_batch_stops_at_first_invalid one_source eq_refl)
    as (A & B & C).
  split; [|split].
  - apply A; reflexivity.
  - apply B; [repeat constructor | reflexivity | reflexivity].
  - apply C. repeat constructor.
Defined.

(** C4, as the specification has it, fails: [add] pushes the source on
    [_sources] without looking whether it is there.  After two calls of
    [add(s)] on the instance [new Concat()] returns, both of which return
    the instance, [_sources] holds [s] twice. *)
Lemma add_twice_counterexample :
  snd (add empty_instance (VReadable 1)) = Return This /\
  snd (add (fst (add empty_instance (VReadable 1))) (VReadable 1)) =
    Return This /\
  _sources (fst (add (fst (add empty_instance (VReadable 1))) (VReadable 1))) =
    [VReadable 1; VReadable 1] /\
  ~ NoDup
      (_sources
         (fst (add (fst (add empty_instance (VReadable 1))) (VReadable 1)))).
Proof.
  repeat split.
  intros H. inversion H as [|x l Hin _]; subst. apply Hin. now left.
Qed.

(** C4, amended.  [remove], [clear] and [close] keep [_sources] free of
    duplicates, and so does [add(s)] for a readable stream [s] that is not a
    member.  [add] makes no membership test: on an instance that is not
    closed, [add(s)] appends [s] to [_sources] whether or not it is there
    already. *)
Theorem at_most_once_preserved :
  forall st,
    NoDup (_sources st) ->
    (forall source, NoDup (_sources (fst (remove st source)))) /\
    NoDup (_sources (fst (clear st))) /\
    NoDup (_sources (fst (close st))) /\
    (forall s, isReadableStream s = true -> member s st = false ->
               NoDup (_sources (fst (add st s)))) /\
    (forall s, isReadableStream s = true -> _closed st = false ->
               _sources (fst (add st s)) = _sources st ++ [s]).
Proof.
  intros st Hn.
  assert (A : forall s, isReadableStream s = true -> _closed st = false ->
                        _sources (fst (add st s)) = _sources st ++ [s]).
  { intros s Hs Hc. destruct (isReadableStream_inv s Hs) as [a ->].
    rewrite add_open by exact Hc. reflexivity. }
  split; [|split; [|split; [|split]]].
  - intros source.
    destruct (remove_touched st source) as [_ [p Hp] _ _ _ _ _ _ _].
    rewrite Hp. apply NoDup_filter, Hn.
  - destruct (clear_touched st) as [_ [p Hp] _ _ _ _ _ _ _].
    rewrite Hp. apply NoDup_filter, Hn.
  - destruct (close_sources st) as [p Hp].
    rewrite Hp. apply NoDup_filter, Hn.
  - intros s Hs Hm. destruct (_closed st) eqn:Hc.
    + rewrite add_closed by exact Hc. exact Hn.
    + rewrite (A s Hs eq_refl).
      apply NoDup_app; [exact Hn | repeat constructor; auto |].
      intros x Hx [<-|[]]. unfold member in Hm.
      assert (E : existsb (fun item => strict_eq item s) (_sources st) = true).
      { apply existsb_exists. exists s.
        split; [exact Hx | apply strict_eq_refl]. }
      congruence.
  - exact A.
Qed.

Lemma at_most_once_preserved_witness :
  NoDup (_sources one_source) /\
  NoDup (_sources (fst (remove one_source (VReadable 1)))) /\
  NoDup (_sources (fst (clear one_source))) /\
  NoDup (_sources (fst (close one_source))) /\
  NoDup (_sources (fst (add one_source (VReadable 3)))) /\
  _sources (fst (add one_source (VReadable 1))) =
  _sources one_source ++ [VReadable 1].
Proof.
  assert (H : NoDup (_sources one_source)).
  { simpl. repeat constructor; simpl; intuition discriminate. }
  split; [exact H|].
  destruct (at_most_once_preserved one_source H) as (R & C & D & A & B).
  split; [apply R|]. split; [exact C|]. split; [exact D|].
  split; [apply A; reflexivity | apply B; reflexivity].
Defined.

(** C5.  Whatever the instance, after [close()] and any list of further
    actions (calls of [add], [remove], [clear] and [close], sources that
    end, turns of the event loop, a consumer that resumes, pauses or reads
    the stream) [_closed] is true, and a call of [add] throws [ClosedError]
    and leaves the instance, [_sources] included, as it was. *)
Theorem closed_is_permanent :
  forall st acts source,
    _closed (run (fst (close st)) acts) = true /\
    add (run (fst (close st)) acts) source =
    (run (fst (close st)) acts, Throw ClosedError).
Proof.
  intros st acts source.
  assert (H : _closed (run (fst (close st)) acts) = true)
    by apply run_closed, close_closed.
  split; [exact H | apply add_closed, H].
Qed.

(** C6.  The claim: every call that does not throw returns the instance,
    [close()] on a closed instance included.  What [index.js] does: the guard
    at the head of [close] is a bare [return], so the second [close()] on any
    instance returns [undefined]; the first one, on the instance
    [new Concat()] returns, returns the instance. *)
Theorem close_twice_returns_undefined :
  (forall st, snd (close (fst (close st))) = Return Undefined) /\
  snd (close empty_instance) = Return This /\
  close (fst (close empty_instance)) =
  (fst (close empty_instance), Return Undefined).
Proof.
  split; [|split; reflexivity].
  intros st. unfold close at 1. now rewrite close_closed.
Qed.







(** C9.  Called without [new], [Concat(x)] is [new Concat(options)] with
    [options] the second argument, which is [undefined]: whatever [x] is, a
    stream or a sequence of streams included, the instance has empty
    [_sources] and the default options, [objectMode] true and no bound on
    the listeners. *)
Theorem Concat_without_new_discards_argument :
  forall x,
    Concat false x VUndefined = Concat true VUndefined VUndefined /\
    Concat false x VUndefined = (empty_instance, Return This) /\
    _sources (fst (Concat false x VUndefined)) = [] /\
    objectMode (fst (Concat false x VUndefined)) = true /\
    maxListeners (fst (Concat false x VUndefined)) = 0%N /\
    forall options, Concat false x options = Concat true options VUndefined.
Proof. intros x. repeat split. Qed.

(** C10.  [remove] does not validate its argument: for a value without an
    [unpipe] method, [source.unpipe(this)] throws a [TypeError] before
    anything else is done, on every instance. *)
Theorem remove_without_unpipe_throws :
  forall st source,
    has_unpipe source = false ->
    remove st source = (st, Throw TypeError).
Proof. intros st source H. apply remove_throws, H. Qed.

Lemma remove_without_unpipe_throws_witness :
  has_unpipe VNull = false /\
  remove empty_instance VNull = (empty_instance, Throw TypeError) /\
  remove empty_instance VUndefined = (empty_instance, Throw TypeError) /\
  remove empty_instance (VObject 7 false None) =
  (empty_instance, Throw TypeError).
Proof.
  split; [reflexivity|].
  split; [|split]; apply remove_without_unpipe_throws; reflexivity.
Defined.

(** * Further properties of [index.js] *)

(** ** [===] is an equivalence *)

Lemma strict_eq_sym : forall a b, strict_eq a b = strict_eq b a.
Proof.
  intros v w.
  destruct v as [| | x | x | x | x u m | x | x l],
           w as [| | y | y | y | y u' m' | y | y l']; simpl;
    auto using Z.eqb_sym, String.eqb_sym, Nat.eqb_sym.
  destruct x, y; reflexivity.
Qed.

Lemma strict_eq_trans : forall a b c,
  strict_eq a b = true -> strict_eq a c = strict_eq b c.
Proof.
  intros v w c.
  destruct v as [| | x | x | x | x u m | x | x l],
           w as [| | y | y | y | y u' m' | y | y l']; simpl;
    intros H; try discriminate;
    try apply Bool.eqb_prop in H; try apply Z.eqb_eq in H;
    try apply String.eqb_eq in H; try apply Nat.eqb_eq in H;
    subst; destruct c; reflexivity.
Qed.

Lemma filter_same_source : forall x source l,
  strict_eq x source = true ->
  filter (fun item => negb (strict_eq item x)) l =
  filter (fun item => negb (strict_eq item source)) l.
Proof.
  intros x source l H. apply filter_ext. intros item.
  rewrite (strict_eq_sym item x), (strict_eq_sym item source).
  now rewrite (strict_eq_trans x source item H).
Qed.

(** ** The pipes and the events of [remove] *)

Lemma filter_none : forall (A : Type) (p : A -> bool) l,
  filter p l = [] -> filter (fun x => negb (p x)) l = l.
Proof.
  induction l as [|x l IH]; simpl; auto.
  destruct (p x); simpl; intros H; [discriminate | now rewrite IH].
Qed.

Lemma splice_first_others : forall source l,
  filter (fun x => negb (strict_eq x source)) (splice_first source l) =
  filter (fun x => negb (strict_eq x source)) l.
Proof.
  induction l as [|x l IH]; simpl; auto.
  destruct (strict_eq x source) eqn:E; simpl; auto.
  now rewrite E, IH.
Qed.

Lemma splice_first_count : forall source l k,
  List.length (filter (fun x => strict_eq x source) l) = S k ->
  List.length (filter (fun x => strict_eq x source) (splice_first source l)) = k.
Proof.
  induction l as [|x l IH]; simpl; intros k H; [discriminate|].
  destruct (strict_eq x source) eqn:E; simpl in *.
  - now injection H.
  - rewrite E. apply IH, H.
Qed.


Lemma remove_body_pipes : forall source st,
  pipes (remove_body source st) = pipes st.
Proof.
  intros source st. unfold remove_body. destruct (_ && _); reflexivity.
Qed.


Lemma remove_piped_pipes : forall k source st,
  piped source st = k ->
  pipes (remove_piped k source st) =
  filter (fun x => negb (strict_eq x source)) (pipes st).
Proof.
  induction k as [|k IH]; intros source st Hk; simpl;
    rewrite remove_body_pipes.
  - unfold piped in Hk. apply length_zero_iff_nil in Hk.
    symmetry. apply (filter_none _ _ _ Hk).
  - rewrite IH.
    + simpl. apply splice_first_others.
    + unfold piped in *. simpl. apply splice_first_count, Hk.
Qed.

Lemma remove_body_twice : forall source st,
  remove_body source (remove_body source st) = remove_body source st.
Proof.
  intros source st. destruct st as [c s o m r e p pi el im em].
  unfold remove_body; simpl.
  destruct ((List.length
               (filter (fun item => negb (strict_eq item source)) s) =? 0)
            && r) eqn:G; simpl; rewrite filter_twice, G; reflexivity.
Qed.

Lemma remove_piped_last : forall k source st,
  exists st0, remove_piped k source st = remove_body source st0.
Proof. destruct k; simpl; eauto. Qed.

Lemma piped_filtered : forall source l,
  List.length
    (filter (fun x => strict_eq x source)
            (filter (fun x => negb (strict_eq x source)) l)) = 0.
Proof.
  induction l as [|x l IH]; simpl; auto.
  destruct (strict_eq x source) eqn:E; simpl; auto.
  now rewrite E.
Qed.


Lemma remove_pipes : forall st source,
  has_unpipe source = true ->
  pipes (fst (remove st source)) =
  filter (fun x => negb (strict_eq x source)) (pipes st).
Proof.
  intros st source Hu. unfold remove. rewrite Hu. simpl.
  now apply remove_piped_pipes.
Qed.

(** X1.  [remove] is idempotent: a second [remove(source)] right after the
    first leaves the instance as the first left it, whatever the instance
    and the value. *)
Theorem remove_is_idempotent :
  forall st source,
    fst (remove (fst (remove st source)) source) = fst (remove st source).
Proof.
  intros st source.
  destruct (has_unpipe source) eqn:Hu.
  - assert (Hp : piped source (fst (remove st source)) = 0).
    { unfold piped. rewrite remove_pipes by exact Hu. apply piped_filtered. }
    unfold remove at 1. rewrite Hu, Hp. simpl.
    unfold remove. rewrite Hu. simpl.
    destruct (remove_piped_last (piped source st) source st) as [st0 ->].
    apply remove_body_twice.
  - now rewrite !remove_throws.
Qed.



(** ** The queue of callbacks *)

Lemma unpipe_pipes : forall source st,
  pipes (unpipe source st) =
  filter (fun x => negb (strict_eq x source)) (pipes st).
Proof.
  intros source st. unfold unpipe. destruct (piped source st) as [|k] eqn:K.
  - unfold piped in K. apply length_zero_iff_nil in K.
    symmetry. apply (filter_none _ _ _ K).
  - rewrite remove_piped_pipes.
    + simpl. apply splice_first_others.
    + unfold piped in *. simpl. apply splice_first_count, K.
Qed.

Lemma unpipes_pipes : forall l st,
  pipes (fold_left (fun s source => unpipe source s) l st) =
  filter (fun x => forallb (fun s => negb (strict_eq x s)) l) (pipes st).
Proof.
  induction l as [|a l IH]; intros st; simpl.
  - symmetry. apply filter_all.
  - rewrite IH, unpipe_pipes. apply filter_filter.
Qed.

(** After the ['close'] event no pipe is left. *)
Lemma close_task_pipes : forall st, pipes (run_task CloseTask st) = [].
Proof.
  intros st. unfold run_task. rewrite unpipes_pipes. simpl.
  apply filter_out_self.
Qed.

Lemma tasks_pipes : forall tasks st,
  pipes (fold_left (fun s t => flush_end (run_task t s)) tasks st) =
  pipes_after tasks (pipes st).
Proof.
  induction tasks as [|t tasks IH]; intros st; simpl; auto.
  rewrite IH.
  destruct (flush_end_frame (run_task t st)) as (_ & _ & _ & _ & _ & _ & P).
  rewrite P. destruct t as [source|].
  - reflexivity.
  - now rewrite close_task_pipes.
Qed.

Lemma turn_pipes : forall st,
  pipes (turn st) = pipes_after (immediates st) (pipes st).
Proof.
  intros st. unfold turn. rewrite tasks_pipes. simpl.
  destruct (flush_end_frame st) as (_ & _ & _ & _ & Fi & _ & Fp).
  now rewrite Fi, Fp.
Qed.

Lemma pipes_after_app : forall t1 t2 ps,
  pipes_after (t1 ++ t2) ps = pipes_after t2 (pipes_after t1 ps).
Proof.
  induction t1 as [|t t1 IH]; intros t2 ps; simpl; auto.
  destruct t; apply IH.
Qed.

Lemma pipes_after_map : forall l ps,
  pipes_after (map PipeTask l) ps = ps ++ l.
Proof.
  induction l as [|x l IH]; intros ps; simpl.
  - now rewrite app_nil_r.
  - rewrite IH. now rewrite <- app_assoc.
Qed.

(** X4.  On an instance that is not closed, [add] touches neither the
    pipes nor the history of events nor the state of the stream: the
    wiring is deferred.  The turn of the event loop that follows pipes the
    registered sources into the instance, after the pipes that were already
    waiting and in the order [add] met them. *)
Theorem add_wires_on_next_turn :
  forall st source,
    _closed st = false ->
    pipes (fst (add st source)) = pipes st /\
    emitted (fst (add st source)) = emitted st /\
    readable (fst (add st source)) = readable st /\
    ending (fst (add st source)) = ending st /\
    pipes (turn (fst (add st source))) =
      pipes (turn st) ++ accepted (leaves source).
Proof.
  intros st source Hc. rewrite add_open by exact Hc. simpl.
  repeat split.
  rewrite !turn_pipes. simpl.
  now rewrite pipes_after_app, pipes_after_map.
Qed.

Lemma add_wires_on_next_turn_witness :
  _closed one_source = false /\
  pipes (fst (add one_source (VArray 5 [VReadable 2; VReadable 3]))) = [] /\
  pipes (turn (fst (add one_source (VArray 5 [VReadable 2; VReadable 3])))) =
    [VReadable 1; VReadable 2; VReadable 3].
Proof.
  split; [reflexivity|].
  destruct (add_wires_on_next_turn one_source
              (VArray 5 [VReadable 2; VReadable 3]) eq_refl)
    as (A & _ & _ & _ & B).
  split; [exact A | exact B].
Defined.

Lemma remove_not_member : forall st source,
  has_unpipe source = true -> member source (fst (remove st source)) = false.
Proof.
  intros st source Hu.
  destruct (remove_ok st source Hu) as [_ [_ Rs _ _ _ _ _ _ _ _]].
  unfold member. rewrite Rs.
  apply not_true_is_false. intros H.
  apply existsb_exists in H. destruct H as (x & Hx & Ex).
  apply filter_In in Hx. destruct Hx as [_ Hx]. rewrite Ex in Hx.
  discriminate.
Qed.

Lemma existsb_filter_false : forall (A : Type) (p q : A -> bool) l,
  existsb p l = false -> existsb p (filter q l) = false.
Proof.
  induction l as [|x l IH]; simpl; auto.
  intros H. apply orb_false_elim in H. destruct H as [Hx Hl].
  destruct (q x); simpl; rewrite ?Hx; auto.
Qed.

(** X5.  [remove] does not cancel the [pipe] that [add] queued.  A stream
    that is added and removed before the event loop turns is no member of
    [_sources] after the turn, and is piped into the instance all the
    same. *)
Theorem removed_source_is_still_wired :
  forall st s,
    _closed st = false ->
    isReadableStream s = true ->
    member s (turn (fst (remove (fst (add st s)) s))) = false /\
    1 <= piped s (turn (fst (remove (fst (add st s)) s))).
Proof.
  intros st s Hc Hs.
  pose proof (readable_has_unpipe s Hs) as Hu.
  destruct (isReadableStream_inv s Hs) as [n ->].
  split.
  - unfold member.
    destruct (turn_frame (fst (remove (fst (add st (VReadable n)))
                                      (VReadable n)))) as (_ & [p E] & _).
    rewrite E. apply existsb_filter_false.
    apply (remove_not_member _ _ Hu).
  - unfold piped. rewrite turn_pipes.
    destruct (remove_ok (fst (add st (VReadable n))) (VReadable n) Hu)
      as [_ [_ _ _ _ _ _ _ _ Ri _]].
    rewrite Ri, add_open by exact Hc. simpl.
    rewrite pipes_after_app. simpl.
    rewrite !filter_app, !length_app. simpl. rewrite Nat.eqb_refl. simpl.
    lia.
Qed.

Lemma removed_source_is_still_wired_witness :
  _closed empty_instance = false /\
  isReadableStream (VReadable 1) = true /\
  member (VReadable 1)
    (turn (fst (remove (fst (add empty_instance (VReadable 1)))
                       (VReadable 1)))) = false /\
  1 <= piped (VReadable 1)
    (turn (fst (remove (fst (add empty_instance (VReadable 1)))
                       (VReadable 1)))).
Proof.
  split; [reflexivity|]. split; [reflexivity|].
  apply (removed_source_is_still_wired empty_instance (VReadable 1));
    reflexivity.
Defined.

(** ** Nested batches *)

Lemma leaves_not_arrays : forall v,
  Forall (fun x => isArray x = false) (leaves v).
Proof.
  induction v as [| | b | n | s | a u m | a | a items IH]
    using value_nested_ind; simpl; try (repeat constructor).
  induction IH as [|x items Hx _ IHitems]; simpl; auto.
  apply Forall_app. split; assumption.
Qed.

Lemma leaves_flat : forall l,
  Forall (fun x => isArray x = false) l -> flat_map leaves l = l.
Proof.
  induction 1 as [|x l Hx _ IH]; simpl; auto.
  rewrite IH. destruct x; simpl in *; try reflexivity. discriminate.
Qed.

Lemma forEach_add_open : forall items st,
  _closed st = false ->
  forEach add items st =
  (register (accepted (flat_map leaves items)) st,
   if forallb isReadableStream (flat_map leaves items)
   then None else Some InvalidSourceError).
Proof.
  intros items st Hc.
  pose proof (add_open (VArray 0 items) st Hc) as H.
  rewrite add_eq, Hc in H. simpl in H.
  destruct (forEach add items st) as [st' [e|]];
    destruct (forallb isReadableStream (flat_map leaves items));
    congruence.
Qed.

(** X6.  [add] flattens: for every instance and every value, adding a
    nested sequence does what adding the sequence of its non-array
    elements, taken depth first and left to right, does; a value that is
    no array is the sequence of itself. *)
Theorem add_flattens_nested_batches :
  forall st source b,
    add st source = add st (VArray b (leaves source)).
Proof.
  intros st source b. destruct (_closed st) eqn:Hc.
  - now rewrite !add_closed.
  - rewrite !add_open by exact Hc. simpl.
    now rewrite (leaves_flat _ (leaves_not_arrays source)).
Qed.

(** ** The constructor *)

(** X7.  [new Concat(items, options)] for an array [items] registers the
    readable streams of [items], nested arrays flattened, up to the first
    value that is not one, on a fresh instance whose bound on the listeners
    is [options.maxListeners] or 0; it returns the instance if every value
    is a readable stream and throws [InvalidSourceError] otherwise.
    [new Concat(s, options)] for a readable stream [s] is
    [new Concat([s], options)]. *)
Theorem constructor_registers_batch :
  forall options,
    (forall a items,
        Concat true (VArray a items) options =
        (register (accepted (flat_map leaves items))
                  (new_instance (or_zero (get_maxListeners options))),
         if forallb isReadableStream (flat_map leaves items)
         then Return This else Throw InvalidSourceError)) /\
    (forall n a,
        Concat true (VReadable n) options =
        Concat true (VArray a [VReadable n]) options) /\
    (forall n,
        Concat true (VReadable n) options =
        (register [VReadable n]
                  (new_instance (or_zero (get_maxListeners options))),
         Return This)).
Proof.
  intros options.
  assert (A : forall a items,
        Concat true (VArray a items) options =
        (register (accepted (flat_map leaves items))
                  (new_instance (or_zero (get_maxListeners options))),
         if forallb isReadableStream (flat_map leaves items)
         then Return This else Throw InvalidSourceError)).
  { intros a items. unfold Concat, construct. simpl.
    fold (new_instance (or_zero (get_maxListeners options))).
    rewrite forEach_add_open by reflexivity.
    destruct (forallb isReadableStream (flat_map leaves items));
      reflexivity. }
  split; [exact A|]. split.
  - intros n a. reflexivity.
  - intros n. change (Concat true (VReadable n) options)
      with (Concat true (VArray 0 [VReadable n]) options).
    rewrite A. reflexivity.
Qed.

(** X8.  With nothing to add, the constructor returns an instance without
    sources, not closed, readable, with nothing queued: for a first argument
    that is falsy ([undefined], [null], [false], [0], the empty string), for
    an empty array, and for a plain object passed alone, which is taken as
    the options. *)
Theorem constructor_without_sources :
  (forall streams options,
      truthy streams = false ->
      Concat true streams options =
      (new_instance (or_zero (get_maxListeners options)), Return This)) /\
  (forall a options,
      Concat true (VArray a []) options =
      (new_instance (or_zero (get_maxListeners options)), Return This)) /\
  (forall a u m,
      Concat true (VObject a u m) VUndefined =
      (new_instance (or_zero m), Return This)).
Proof.
  split; [|split].
  - intros streams options H.
    destruct streams; simpl in H; try discriminate;
      unfold Concat, construct; simpl; rewrite ?H; reflexivity.
  - reflexivity.
  - reflexivity.
Qed.

Lemma constructor_without_sources_witness :
  truthy (VNum 0) = false /\
  Concat true (VNum 0) (VObject 3 false (Some 5%N)) =
  (new_instance 5, Return This).
Proof.
  split; [reflexivity|].
  destruct constructor_without_sources as (A & _).
  apply (A (VNum 0) (VObject 3 false (Some 5%N))). reflexivity.
Defined.

(** X9.  The constructor throws a [TypeError] for a first argument that is
    a truthy primitive value, [true], a number other than 0 or a string
    other than the empty one, whatever the second argument: such a value is
    no stream, is not taken as the options, and has no [forEach]. *)
Theorem constructor_rejects_primitives :
  forall streams options,
    is_primitive streams = true ->
    truthy streams = true ->
    snd (Concat true streams options) = Throw TypeError.
Proof.
  intros streams options Hp Ht.
  destruct streams; simpl in *; try discriminate;
    unfold Concat, construct; simpl; rewrite ?Ht; reflexivity.
Qed.

Lemma constructor_rejects_primitives_witness :
  is_primitive (VNum 7) = true /\
  truthy (VNum 7) = true /\
  snd (Concat true (VNum 7) VUndefined) = Throw TypeError /\
  snd (Concat true (VBool true) (VObject 2 false None)) = Throw TypeError.
Proof.
  split; [reflexivity|]. split; [reflexivity|].
  split; apply constructor_rejects_primitives; reflexivity.
Defined.

(** ** After the end, and after [close] *)

(** X10.  An instance that has emitted ['end'] stays ended: once [readable]
    is false, no call of [add], [remove], [clear] or [close], no source that
    ends and no turn of the event loop makes it true again or has ['end']
    emitted another time.  A source added after the end is registered into
    a stream that will not end again. *)
Theorem ended_stream_never_reopens :
  forall st acts,
    readable st = false ->
    readable (run st acts) = false /\ ends (run st acts) = ends st.
Proof. intros st acts H. apply run_ended, H. Qed.

Lemma ended_stream_never_reopens_witness :
  readable (run one_source [Resume; Clear; Turn]) = false /\
  readable (run (run one_source [Resume; Clear; Turn])
                [Add (VReadable 2); Turn; Remove (VReadable 2); Turn; Read]) =
    false /\
  ends (run (run one_source [Resume; Clear; Turn])
            [Add (VReadable 2); Turn; Remove (VReadable 2); Turn; Read]) =
    ends (run one_source [Resume; Clear; Turn]).
Proof.
  split; [reflexivity|].
  apply (ended_stream_never_reopens (run one_source [Resume; Clear; Turn])).
  reflexivity.
Defined.

(** X11.  After [close()] on an instance a program can hold, [_sources] is
    empty and stays empty whatever follows, and so no value is a member. *)
Theorem closed_instance_stays_empty :
  forall st acts,
    reachable st ->
    _sources (run (fst (close st)) acts) = [] /\
    forall source, member source (run (fst (close st)) acts) = false.
Proof.
  intros st acts H.
  assert (E : _sources (run (fst (close st)) acts) = []).
  { apply inv_closed.
    - apply run_inv, close_inv, reachable_inv, H.
    - apply run_closed, close_closed. }
  split; [exact E|]. intros source. unfold member. now rewrite E.
Qed.

Lemma closed_instance_stays_empty_witness :
  reachable three_entries /\
  _sources (run (fst (close three_entries))
                [Add (VReadable 4); Turn; Clear]) = [].
Proof.
  split; [exact three_entries_reachable|].
  apply (closed_instance_stays_empty three_entries
           [Add (VReadable 4); Turn; Clear] three_entries_reachable).
Defined.

(** ** The listeners on the instances a program can hold *)

Lemma remove_end_listeners : forall st source,
  end_listeners (fst (remove st source)) = end_listeners st.
Proof.
  intros st source. destruct (has_unpipe source) eqn:Hu.
  - destruct (remove_ok st source Hu) as [_ [_ _ _ _ _ _ _ Rl _ _]].
    exact Rl.
  - now rewrite remove_throws.
Qed.

Lemma forEach_remove_end_listeners : forall l st,
  end_listeners (fst (forEach remove l st)) = end_listeners st.
Proof.
  induction l as [|a l IH]; intros st; simpl; auto.
  pose proof (remove_end_listeners st a) as A.
  destruct (remove st a) as [st' [r|e]]; simpl in *; auto.
  now rewrite IH.
Qed.

Lemma clear_end_listeners : forall st,
  end_listeners (fst (clear st)) = end_listeners st.
Proof.
  intros st. unfold clear.
  pose proof (forEach_remove_end_listeners (_sources st) st) as H.
  destruct (forEach remove (_sources st) st) as [st' [e|]]; exact H.
Qed.

Lemma register_inv_listeners : forall l st,
  inv_listeners st ->
  Forall (fun v => isReadableStream v = true) l ->
  inv_listeners (register l st).
Proof.
  intros l st [Lr Lm] Hl. constructor; simpl.
  - apply Forall_app. split; assumption.
  - apply Forall_app. split.
    + eapply Forall_impl; [|exact Lm]. intros v Hv.
      unfold listening in *. simpl. rewrite existsb_app, Hv. reflexivity.
    + apply Forall_forall. intros v Hv. unfold listening. simpl.
      apply existsb_exists. exists v. split.
      * apply in_or_app. now right.
      * apply strict_eq_refl.
Qed.

Lemma add_inv_listeners : forall st source,
  inv_listeners st -> inv_listeners (fst (add st source)).
Proof.
  intros st source I. destruct (_closed st) eqn:Hc.
  - now rewrite add_closed.
  - rewrite add_open by exact Hc. simpl.
    apply register_inv_listeners; auto using accepted_readable.
Qed.

Lemma forEach_add_inv_listeners : forall items st,
  inv_listeners st -> inv_listeners (fst (forEach add items st)).
Proof.
  induction items as [|x items IH]; intros st I; simpl; auto.
  pose proof (add_inv_listeners st x I) as I'.
  destruct (add st x) as [st' [r|e]]; simpl in *; auto.
Qed.

(** Fewer members and the same listeners keep [inv_listeners]. *)
Lemma fewer_members : forall st st',
  inv_listeners st ->
  (exists p, _sources st' = filter p (_sources st)) ->
  end_listeners st' = end_listeners st ->
  inv_listeners st'.
Proof.
  intros st st' [Lr Lm] [p Hp] El.
  constructor.
  - now rewrite El.
  - rewrite Hp. apply Forall_forall. intros v Hv.
    apply filter_In in Hv. destruct Hv as [Hv _].
    unfold listening. rewrite El.
    eapply Forall_forall in Lm; eauto.
Qed.

Lemma fired_readable : forall source st,
  inv_listeners st ->
  Forall (fun v => has_unpipe v = true)
         (filter (fun x => strict_eq x source) (end_listeners st)).
Proof.
  intros source st [Lr _]. apply Forall_forall. intros x Hx.
  apply filter_In in Hx. destruct Hx as [Hx _].
  apply readable_has_unpipe. eapply Forall_forall in Lr; eauto.
Qed.

(** What [source_end] leaves of the instance, on the instances a program
    can hold. *)
Lemma source_end_ok : forall st source,
  inv_listeners st ->
  snd (source_end st source) = Return Undefined /\
  end_listeners (fst (source_end st source)) =
    filter (fun x => negb (strict_eq x source)) (end_listeners st) /\
  _sources (fst (source_end st source)) =
    filter (fun item =>
              forallb (fun s => negb (strict_eq item s))
                      (filter (fun x => strict_eq x source)
                              (end_listeners st)))
           (_sources st).
Proof.
  intros st source L. unfold source_end.
  pose proof (fired_readable source st L) as F.
  match goal with
  | |- context [forEach remove ?l ?s] =>
      destruct (forEach_remove_ok l s F) as (A & B & _);
      pose proof (forEach_remove_end_listeners l s) as C;
      destruct (forEach remove l s) as [st' [e|]]
  end; simpl in *; try discriminate.
  repeat split; auto.
Qed.

Lemma source_end_inv_listeners : forall st source,
  inv_listeners st -> inv_listeners (fst (source_end st source)).
Proof.
  intros st source L.
  destruct (source_end_ok st source L) as (_ & El & Es).
  destruct L as [Lr Lm].
  constructor.
  - rewrite El. apply Forall_forall. intros x Hx.
    apply filter_In in Hx. destruct Hx as [Hx _].
    eapply Forall_forall in Lr; eauto.
  - rewrite Es. apply Forall_forall. intros v Hv.
    apply filter_In in Hv. destruct Hv as [Hv Hf].
    eapply Forall_forall in Lm; eauto. unfold listening in *.
    rewrite El. apply existsb_exists in Lm. destruct Lm as (x & Hx & Exv).
    apply existsb_exists. exists x. split; [|exact Exv].
    apply filter_In. split; [exact Hx|].
    destruct (strict_eq x source) eqn:E; [|reflexivity].
    rewrite forallb_forall in Hf.
    assert (Hin : In x (filter (fun y => strict_eq y source)
                               (end_listeners st))).
    { apply filter_In. now split. }
    specialize (Hf x Hin). rewrite strict_eq_sym, Exv in Hf. discriminate.
Qed.

Lemma close_inv_listeners : forall st,
  inv_listeners st -> inv_listeners (fst (close st)).
Proof.
  intros st L. unfold close. destruct (_closed st) eqn:Hc; simpl; auto.
  pose proof (clear_touched (set_closed true st)) as [_ Ts _ _ _ _ _ _ _].
  pose proof (clear_end_listeners (set_closed true st)) as El.
  destruct (clear (set_closed true st)) as [st2 [r|e]]; simpl in *;
    apply (fewer_members st); auto.
Qed.

Lemma step_inv_listeners : forall st a,
  inv_listeners st -> inv_listeners (fst (step st a)).
Proof.
  intros st a L. destruct a; simpl.
  - apply add_inv_listeners, L.
  - apply (fewer_members st); auto.
    + destruct (remove_touched st source); assumption.
    + apply remove_end_listeners.
  - apply (fewer_members st); auto.
    + destruct (clear_touched st); assumption.
    + apply clear_end_listeners.
  - apply close_inv_listeners, L.
  - apply source_end_inv_listeners, L.
  - destruct (turn_frame st) as (_ & Ts & _ & _ & El & _).
    apply (fewer_members st); auto.
  - destruct (flush_end_frame st) as (_ & Ts & _ & _ & _ & El & _).
    destruct L. constructor.
    + now rewrite El.
    + rewrite Ts. unfold listening in *. now rewrite El.
  - destruct L. constructor; assumption.
  - destruct L. constructor; assumption.
  - unfold read. destruct (ending st && readable st); auto.
    destruct L. constructor; assumption.
Qed.

Lemma new_instance_inv_listeners : forall m, inv_listeners (new_instance m).
Proof. intros m. constructor; simpl; auto. Qed.

Lemma construct_inv_listeners : forall streams options,
  inv_listeners (fst (construct streams options)).
Proof.
  intros streams options. unfold construct.
  destruct (if isReadableStream streams then _ else _) as [streams1 options1].
  fold (new_instance (or_zero (get_maxListeners options1))).
  destruct (if truthy streams1 then streams1 else VArray 0 []);
    simpl; try apply new_instance_inv_listeners.
  match goal with
  | |- context [forEach add ?l ?s] =>
      pose proof (forEach_add_inv_listeners l s
                    (new_instance_inv_listeners _)) as I;
      destruct (forEach add l s) as [st' [e|]]
  end; exact I.
Qed.

Lemma reachable_inv_listeners : forall st, reachable st -> inv_listeners st.
Proof.
  induction 1 as [with_new streams options st r H | st a R IH].
  - unfold Concat in H.
    destruct (negb with_new);
      match type of H with
      | construct ?s ?o = _ => pose proof (construct_inv_listeners s o) as I
      end; rewrite H in I; exact I.
  - apply step_inv_listeners, IH.
Qed.

(** ** After [close]: the pipes and the queue *)

Lemma add_closed_same : forall st source,
  _closed (fst (add st source)) = _closed st.
Proof.
  intros st source. destruct (_closed st) eqn:Hc.
  - now rewrite add_closed.
  - now rewrite add_open.
Qed.

Lemma forEach_add_closed_same : forall items st,
  _closed (fst (forEach add items st)) = _closed st.
Proof.
  induction items as [|x items IH]; intros st; simpl; auto.
  pose proof (add_closed_same st x) as A.
  destruct (add st x) as [st' [r|e]]; simpl in *; auto.
  now rewrite IH.
Qed.

Lemma construct_open : forall streams options,
  _closed (fst (construct streams options)) = false.
Proof.
  intros streams options. unfold construct.
  destruct (if isReadableStream streams then _ else _) as [streams1 options1].
  destruct (if truthy streams1 then streams1 else VArray 0 []);
    simpl; auto.
  match goal with
  | |- context [forEach add ?l ?s] =>
      pose proof (forEach_add_closed_same l s) as I;
      destruct (forEach add l s) as [st' [e|]]
  end; exact I.
Qed.

Lemma remove_pipes_filter : forall st source,
  exists q, pipes (fst (remove st source)) = filter q (pipes st).
Proof.
  intros st source. destruct (has_unpipe source) eqn:Hu.
  - rewrite remove_pipes by exact Hu. eauto.
  - rewrite remove_throws by exact Hu.
    exists (fun _ => true). symmetry. apply filter_all.
Qed.

Lemma forEach_remove_pipes_filter : forall l st,
  exists q, pipes (fst (forEach remove l st)) = filter q (pipes st).
Proof.
  induction l as [|a l IH]; intros st; simpl.
  - exists (fun _ => true). symmetry. apply filter_all.
  - destruct (remove_pipes_filter st a) as [q Hq].
    destruct (remove st a) as [st' [r|e]]; simpl in *; eauto.
    destruct (IH st') as [q' Hq'].
    exists (fun x => q x && q' x). rewrite Hq', Hq. apply filter_filter.
Qed.

(** What a step other than [add], [close] and a turn of the event loop
    leaves of the queue and of the pipes. *)
Lemma step_queue : forall st a,
  (forall source, a <> Add source) -> a <> Close -> a <> Turn ->
  _closed (fst (step st a)) = _closed st /\
  immediates (fst (step st a)) = immediates st /\
  exists q, pipes (fst (step st a)) = filter q (pipes st).
Proof.
  assert (Same : forall ps : list value,
            exists q, ps = filter q ps).
  { intros ps. exists (fun _ => true). symmetry. apply filter_all. }
  intros st a Ha Hc Ht. destruct a; simpl;
    try (elim (Ha source); reflexivity); try congruence.
  - destruct (remove_touched st source) as [Tc _ _ _ _ _ _ Ti _].
    split; [exact Tc|]. split; [exact Ti | apply remove_pipes_filter].
  - destruct (clear_touched st) as [Tc _ _ _ _ _ _ Ti _].
    split; [exact Tc|]. split; [exact Ti|].
    unfold clear.
    destruct (forEach_remove_pipes_filter (_sources st) st) as [q Hq].
    destruct (forEach remove (_sources st) st) as [st' [e|]]; eauto.
  - destruct (source_end_touched st source) as [Tc _ _ _ _ _ _ Ti _].
    split; [exact Tc|]. split; [exact Ti|].
    unfold source_end.
    match goal with
    | |- context [forEach remove ?l ?s] =>
        destruct (forEach_remove_pipes_filter l s) as [q Hq];
        destruct (forEach remove l s) as [st' [e|]]
    end; simpl in *; eauto.
  - destruct (flush_end_frame st) as (Fc & _ & _ & _ & Fi & _ & Fp).
    rewrite Fc, Fi, Fp. auto.
  - auto.
  - auto.
  - unfold read. destruct (ending st && readable st); simpl; auto.
Qed.

(** A closed instance a program can hold has the close callback at the end
    of its queue, or it has an empty queue and no pipe. *)
Lemma reachable_close_queued : forall st,
  reachable st ->
  _closed st = true ->
  (immediates st = [] /\ pipes st = []) \/
  (exists tasks, immediates st = tasks ++ [CloseTask]).
Proof.
  induction 1 as [with_new streams options st r H | st a R IH]; intros Hc.
  - unfold Concat in H.
    destruct (negb with_new);
      match type of H with
      | construct ?s ?o = _ => pose proof (construct_open s o) as I
      end; rewrite H in I; simpl in I; congruence.
  - destruct a as [s|s| | |s| | | | |].
    + simpl in *. rewrite add_closed_same in Hc.
      rewrite add_closed by exact Hc. apply IH, Hc.
    + from_queue (step_queue st (Remove s)) IH Hc.
    + from_queue (step_queue st Clear) IH Hc.
    + simpl in *. unfold close in *. destruct (_closed st) eqn:Hc'.
      * apply IH. reflexivity.
      * destruct (reachable_inv st R) as [Is _ _ _].
        destruct (clear_ok (set_closed true st) Is) as (Er & _ & _ & _).
        destruct (clear (set_closed true st)) as [st2 c]; simpl in *.
        subst c. simpl. right. eauto.
    + from_queue (step_queue st (SourceEnd s)) IH Hc.
    + simpl in *.
      destruct (turn_frame st) as (Tc & _ & _ & Ti & _).
      rewrite Tc in Hc. left. split; [exact Ti|].
      rewrite turn_pipes.
      destruct (IH Hc) as [[E1 E2]|[tasks E]].
      * now rewrite E1, E2.
      * rewrite E, pipes_after_app. reflexivity.
    + from_queue (step_queue st Tick) IH Hc.
    + from_queue (step_queue st Resume) IH Hc.
    + from_queue (step_queue st Pause) IH Hc.
    + from_queue (step_queue st Read) IH Hc.
Qed.

Lemma idle_step : forall st a,
  _closed st = true -> immediates st = [] -> pipes st = [] ->
  _closed (fst (step st a)) = true /\
  immediates (fst (step st a)) = [] /\
  pipes (fst (step st a)) = [].
Proof.
  intros st a Hc Hi Hp.
  split; [apply step_closed, Hc|].
  destruct a as [s|s| | |s| | | | |].
  - simpl. rewrite add_closed by exact Hc. auto.
  - idle_queue (step_queue st (Remove s)) Hi Hp.
  - idle_queue (step_queue st Clear) Hi Hp.
  - simpl. unfold close. rewrite Hc. auto.
  - idle_queue (step_queue st (SourceEnd s)) Hi Hp.
  - simpl. destruct (turn_frame st) as (_ & _ & _ & Ti & _).
    rewrite turn_pipes, Hi, Hp. auto.
  - idle_queue (step_queue st Tick) Hi Hp.
  - idle_queue (step_queue st Resume) Hi Hp.
  - idle_queue (step_queue st Pause) Hi Hp.
  - idle_queue (step_queue st Read) Hi Hp.
Qed.

Lemma idle_run : forall acts st,
  _closed st = true -> immediates st = [] -> pipes st = [] ->
  immediates (run st acts) = [] /\ pipes (run st acts) = [].
Proof.
  induction acts as [|a acts IH]; intros st Hc Hi Hp; simpl; auto.
  destruct (idle_step st a Hc Hi Hp) as (A & B & C).
  apply IH; assumption.
Qed.

(** X12.  After [close()] on an instance a program can hold and the turn of
    the event loop that follows, no source is piped into the instance and no
    callback is waiting, and this stays so whatever follows: the ['close']
    event takes every pipe down, and a closed instance queues nothing. *)
Theorem closed_instance_is_idle :
  forall st acts,
    reachable st ->
    pipes (turn (fst (close st))) = [] /\
    immediates (run (turn (fst (close st))) acts) = [] /\
    pipes (run (turn (fst (close st))) acts) = [].
Proof.
  intros st acts R.
  assert (R1 : reachable (fst (close st))) by apply (reach_step st Close), R.
  pose proof (close_closed st) as Hc.
  destruct (turn_frame (fst (close st))) as (Tc & _ & _ & Ti & _).
  assert (P : pipes (turn (fst (close st))) = []).
  { rewrite turn_pipes.
    destruct (reachable_close_queued _ R1 Hc) as [[E1 E2]|[tasks E]].
    - now rewrite E1, E2.
    - rewrite E, pipes_after_app. reflexivity. }
  split; [exact P|].
  apply idle_run; [congruence | exact Ti | exact P].
Qed.

Lemma closed_instance_is_idle_witness :
  reachable (turn three_entries) /\
  pipes (turn three_entries) = [VReadable 1; VReadable 2; VReadable 1] /\
  pipes (turn (fst (close (turn three_entries)))) = [] /\
  pipes (run (turn (fst (close (turn three_entries))))
             [Add (VReadable 4); Turn; Close; Turn]) = [].
Proof.
  assert (R : reachable (turn three_entries))
    by apply reachable_turn, three_entries_reachable.
  split; [exact R|]. split; [reflexivity|].
  destruct (closed_instance_is_idle (turn three_entries)
              [Add (VReadable 4); Turn; Close; Turn] R) as (A & _ & B).
  split; [exact A | exact B].
Defined.

(** X13.  On an instance a program can hold that is not closed, [close()]
    returns the instance, sets [_closed], empties [_sources] and puts its
    callback at the end of the queue.  If there were sources and the stream
    was still readable, [end()] has been called.  If there were none,
    nothing else is done: [end()] is not called. *)
Theorem close_on_open_instance :
  forall st,
    reachable st ->
    _closed st = false ->
    snd (close st) = Return This /\
    _closed (fst (close st)) = true /\
    _sources (fst (close st)) = [] /\
    immediates (fst (close st)) = immediates st ++ [CloseTask] /\
    (_sources st <> [] -> readable st = true ->
     ending (fst (close st)) = true) /\
    (_sources st = [] ->
     fst (close st) = setImmediate CloseTask (set_closed true st)).
Proof.
  intros st R Hc.
  destruct (reachable_inv st R) as [Is _ _ _].
  unfold close. rewrite Hc.
  destruct (clear_ok (set_closed true st) Is) as (Er & Es & T & Hend).
  destruct T as [Tc _ _ _ _ _ _ Ti _].
  assert (Hnil : _sources st = [] ->
                 fst (clear (set_closed true st)) = set_closed true st).
  { intros E. unfold clear. simpl. rewrite E. reflexivity. }
  destruct (clear (set_closed true st)) as [st2 c].
  cbn [fst snd] in *. subst c. cbn [fst snd].
  split; [reflexivity|]. split; [simpl; now rewrite Tc|].
  split; [exact Es|]. split; [simpl; now rewrite Ti|]. split.
  - intros Hne Hr. apply Hend; assumption.
  - intros E. now rewrite (Hnil E).
Qed.

Lemma close_on_open_instance_witness :
  reachable three_entries /\
  _closed three_entries = false /\
  snd (close three_entries) = Return This /\
  _sources (fst (close three_entries)) = [] /\
  ending (fst (close three_entries)) = true /\
  ending (fst (close empty_instance)) = false.
Proof.
  split; [exact three_entries_reachable|]. split; [reflexivity|].
  destruct (close_on_open_instance three_entries three_entries_reachable
              eq_refl) as (A & _ & B & _ & C & _).
  destruct (close_on_open_instance empty_instance empty_instance_reachable
              eq_refl) as (_ & _ & _ & _ & _ & D).
  split; [exact A|]. split; [exact B|]. split.
  - apply C; [simpl; discriminate | reflexivity].
  - rewrite (D eq_refl). reflexivity.
Defined.

(** ** Sources that end *)

Lemma existsb_false_filter : forall (A : Type) (p : A -> bool) l,
  existsb p l = false -> filter p l = [].
Proof.
  induction l as [|x l IH]; simpl; auto.
  destruct (p x); simpl; [discriminate | exact IH].
Qed.

Lemma member_filter_other : forall source x l,
  strict_eq x source = false ->
  existsb (fun item => strict_eq item x)
          (filter (fun item => negb (strict_eq item source)) l) =
  existsb (fun item => strict_eq item x) l.
Proof.
  intros source x l Hx. induction l as [|y l IH]; simpl; auto.
  destruct (strict_eq y source) eqn:E; simpl.
  - rewrite IH. destruct (strict_eq y x) eqn:F; [|reflexivity].
    rewrite (strict_eq_trans y x source F), Hx in E. discriminate.
  - now rewrite IH.
Qed.

Lemma member_filter_self : forall source l,
  existsb (fun item => strict_eq item source)
          (filter (fun item => negb (strict_eq item source)) l) = false.
Proof.
  induction l as [|y l IH]; simpl; auto.
  destruct (strict_eq y source) eqn:E; simpl; auto.
  now rewrite E.
Qed.

Lemma fired_all : forall source item fired,
  fired <> [] ->
  Forall (fun x => strict_eq x source = true) fired ->
  forallb (fun s => negb (strict_eq item s)) fired =
  negb (strict_eq item source).
Proof.
  intros source item fired Hne Hall.
  assert (E : forall s, In s fired -> strict_eq item s = strict_eq item source).
  { intros s Hs. eapply Forall_forall in Hall; eauto.
    rewrite (strict_eq_sym item s), (strict_eq_sym item source).
    apply strict_eq_trans, Hall. }
  destruct (strict_eq item source) eqn:F; simpl.
  - destruct fired as [|x fired]; [congruence|]. simpl.
    rewrite (E x (or_introl eq_refl)). reflexivity.
  - apply forallb_forall. intros s Hs. now rewrite (E s Hs).
Qed.

(** X14.  On an instance a program can hold, a member of [_sources] that
    emits ['end'] is removed by the listener [add] installed: it is no
    member afterwards, no listener is left waiting on it, and the membership
    of every other value is as before.  For a value nobody listens to,
    which is the case of a stream that was never added, nothing happens. *)
Theorem source_end_removes_member :
  forall st source,
    reachable st ->
    (listening source st = false ->
     source_end st source = (st, Return Undefined)) /\
    (member source st = true ->
     snd (source_end st source) = Return Undefined /\
     member source (fst (source_end st source)) = false /\
     listening source (fst (source_end st source)) = false /\
     forall x, strict_eq x source = false ->
               member x (fst (source_end st source)) = member x st).
Proof.
  intros st source R.
  pose proof (reachable_inv_listeners st R) as L.
  split.
  - intros Hl. unfold listening in Hl. unfold source_end.
    rewrite (existsb_false_filter _ _ _ Hl), (filter_nonmember _ _ Hl).
    simpl. destruct st; reflexivity.
  - intros Hm.
    destruct (source_end_ok st source L) as (Er & El & Es).
    assert (Hf : filter (fun x => strict_eq x source) (end_listeners st)
                 <> []).
    { unfold member in Hm. apply existsb_exists in Hm.
      destruct Hm as (v & Hv & Ev).
      destruct L as [_ Lm]. eapply Forall_forall in Lm; eauto.
      unfold listening in Lm. apply existsb_exists in Lm.
      destruct Lm as (x & Hx & Ex).
      assert (Hin : In x (filter (fun y => strict_eq y source)
                                 (end_listeners st))).
      { apply filter_In. split; [exact Hx|].
        now rewrite (strict_eq_trans x v source Ex). }
      intros E. rewrite E in Hin. exact Hin. }
    assert (Hall : Forall (fun x => strict_eq x source = true)
                     (filter (fun x => strict_eq x source)
                             (end_listeners st))).
    { apply Forall_forall. intros x Hx. apply filter_In in Hx. tauto. }
    assert (Es' : _sources (fst (source_end st source)) =
                  filter (fun item => negb (strict_eq item source))
                         (_sources st)).
    { rewrite Es. apply filter_ext. intros item.
      apply fired_all; assumption. }
    split; [exact Er|]. split; [|split].
    + unfold member. rewrite Es'. apply member_filter_self.
    + unfold listening. rewrite El. apply member_filter_self.
    + intros x Hx. unfold member. rewrite Es'.
      now apply member_filter_other.
Qed.

Lemma source_end_removes_member_witness :
  reachable three_entries /\
  member (VReadable 1) three_entries = true /\
  member (VReadable 1) (fst (source_end three_entries (VReadable 1))) =
    false /\
  member (VReadable 2) (fst (source_end three_entries (VReadable 1))) =
    true /\
  source_end three_entries (VReadable 9) = (three_entries, Return Undefined).
Proof.
  split; [exact three_entries_reachable|]. split; [reflexivity|].
  destruct (source_end_removes_member three_entries (VReadable 1)
              three_entries_reachable) as (_ & A).
  destruct (A eq_refl) as (_ & B & _ & C).
  destruct (source_end_removes_member three_entries (VReadable 9)
              three_entries_reachable) as (D & _).
  split; [exact B|]. split.
  - rewrite (C (VReadable 2) eq_refl). reflexivity.
  - apply D. reflexivity.
Defined.

Lemma member_is_listened : forall st source,
  inv_listeners st ->
  member source st = true ->
  filter (fun x => strict_eq x source) (end_listeners st) <> [].
Proof.
  intros st source [_ Lm] Hm.
  unfold member in Hm. apply existsb_exists in Hm.
  destruct Hm as (v & Hv & Ev).
  eapply Forall_forall in Lm; eauto.
  unfold listening in Lm. apply existsb_exists in Lm.
  destruct Lm as (x & Hx & Ex).
  assert (Hin : In x (filter (fun y => strict_eq y source)
                             (end_listeners st))).
  { apply filter_In. split; [exact Hx|].
    now rewrite (strict_eq_trans x v source Ex). }
  intros E. rewrite E in Hin. exact Hin.
Qed.

Lemma source_end_ending : forall st source,
  inv_listeners st ->
  readable st = true ->
  filter (fun x => strict_eq x source) (end_listeners st) <> [] ->
  _sources (fst (source_end st source)) = [] ->
  ending (fst (source_end st source)) = true.
Proof.
  intros st source L Hr Hf. unfold source_end.
  pose proof (fired_readable source st L) as F.
  match goal with
  | |- context [forEach remove ?l ?s] =>
      destruct (forEach_remove_ok l s F) as (A & _ & C);
      destruct (forEach remove l s) as [st' [e|]]
  end; simpl in *; try discriminate.
  intros Hs. apply C; assumption.
Qed.

(** X15.  On an instance a program can hold, whose [_sources] holds
    [source] and nothing else, the natural end of [source] empties
    [_sources].  If the stream is still readable, [end()] is called and no
    ['end'] had been emitted before; if moreover the stream is read in
    flowing mode, the next turn of the event loop emits ['end'], and from
    then on it has been emitted exactly once whatever follows. *)
Theorem last_source_end_ends_stream :
  forall st source acts,
    reachable st ->
    _sources st <> [] ->
    Forall (fun item => strict_eq item source = true) (_sources st) ->
    _sources (fst (source_end st source)) = [] /\
    (readable st = true ->
     ending (fst (source_end st source)) = true /\
     ends st = 0 /\
     (flowing st = true ->
      ends (turn (fst (source_end st source))) = 1 /\
      ends (run (turn (fst (source_end st source))) acts) = 1)).
Proof.
  intros st source acts R Hne Hall.
  pose proof (reachable_inv st R) as I.
  pose proof (reachable_inv_listeners st R) as L.
  assert (Hm : member source st = true).
  { unfold member. destruct (_sources st) as [|x l]; [congruence|].
    inversion Hall; subst. simpl. now rewrite H1. }
  pose proof (member_is_listened st source L Hm) as Hf.
  assert (Hall' : Forall (fun x => strict_eq x source = true)
                    (filter (fun x => strict_eq x source)
                            (end_listeners st))).
  { apply Forall_forall. intros x Hx. apply filter_In in Hx. tauto. }
  destruct (source_end_ok st source L) as (_ & _ & Es).
  assert (Es' : _sources (fst (source_end st source)) = []).
  { rewrite Es, <- (filter_only_member source (_sources st) Hall).
    apply filter_ext. intros item. apply fired_all; assumption. }
  pose proof (source_end_touched st source) as T.
  pose proof (touched_inv st _ I T) as I1.
  split; [exact Es'|]. intros Er.
  assert (Eg : ending (fst (source_end st source)) = true)
    by (apply source_end_ending; assumption).
  split; [exact Eg|]. split.
  - destruct I as [_ Ie _ _]. now rewrite Ie, Er.
  - intros Ef.
    assert (E1 : ends (turn (fst (source_end st source))) = 1).
    { apply ends_after_end; [exact I1 | exact Eg |].
      destruct T as [_ _ _ _ _ _ Tf _ _]. congruence. }
    split; [exact E1|].
    apply ends_once_forever; [apply turn_inv, I1 | exact E1].
Qed.

Lemma last_source_end_ends_stream_witness :
  reachable (resume one_source) /\
  _sources (resume one_source) <> [] /\
  Forall (fun item => strict_eq item (VReadable 1) = true)
         (_sources (resume one_source)) /\
  readable (resume one_source) = true /\
  flowing (resume one_source) = true /\
  _sources (fst (source_end (resume one_source) (VReadable 1))) = [] /\
  ends (resume one_source) = 0 /\
  ends (turn (fst (source_end (resume one_source) (VReadable 1)))) = 1.
Proof.
  assert (R : reachable (resume one_source))
    by apply reachable_resume, one_source_reachable.
  assert (N : _sources (resume one_source) <> []) by (simpl; discriminate).
  assert (F : Forall (fun item => strict_eq item (VReadable 1) = true)
                (_sources (resume one_source)))
    by (simpl; repeat constructor).
  split; [exact R|]. split; [exact N|]. split; [exact F|].
  split; [reflexivity|]. split; [reflexivity|].
  destruct (last_source_end_ends_stream (resume one_source) (VReadable 1) []
              R N F) as (A & B).
  destruct (B eq_refl) as (_ & E0 & C).
  destruct (C eq_refl) as [E1 _].
  split; [exact A|]. split; [exact E0 | exact E1].
Defined.

(** ** Members that stay *)

(** X16.  As long as another member stays in [_sources], [remove] of a
    value with an [unpipe] method does not end the stream: [end()] is not
    called, the next turn of the event loop emits ['end'] no more often than
    it would have, and the other member is still there. *)
Theorem remove_keeps_stream_open :
  forall st source other,
    has_unpipe source = true ->
    In other (_sources st) ->
    strict_eq other source = false ->
    snd (remove st source) = Return This /\
    In other (_sources (fst (remove st source))) /\
    ending (fst (remove st source)) = ending st /\
    ends (turn (fst (remove st source))) = ends (turn st).
Proof.
  intros st source other Hu Hin Ho.
  destruct (remove_ok st source Hu) as [Hr [_ Rs _ _ Rr Re Rp _ _ Rn]].
  assert (Hin' : In other (filter (fun item => negb (strict_eq item source))
                                  (_sources st))).
  { apply filter_In. split; [exact Hin | now rewrite Ho]. }
  assert (Hg : (List.length
                  (filter (fun item => negb (strict_eq item source))
                          (_sources st)) =? 0) = false).
  { destruct (filter _ (_sources st)); [destruct Hin' | reflexivity]. }
  rewrite Hg in Re. simpl in Re. rewrite orb_false_r in Re.
  split; [exact Hr|]. split; [now rewrite Rs|]. split; [exact Re|].
  rewrite !ends_turn, Rn, Re, Rr, Rp. reflexivity.
Qed.

Lemma remove_keeps_stream_open_witness :
  has_unpipe (VReadable 1) = true /\
  In (VReadable 2) (_sources three_entries) /\
  strict_eq (VReadable 2) (VReadable 1) = false /\
  ending (fst (remove three_entries (VReadable 1))) = ending three_entries /\
  ends (turn (fst (remove three_entries (VReadable 1)))) =
    ends (turn three_entries).
Proof.
  assert (H : In (VReadable 2) (_sources three_entries))
    by (simpl; auto).
  split; [reflexivity|]. split; [exact H|]. split; [reflexivity|].
  destruct (remove_keeps_stream_open three_entries (VReadable 1)
              (VReadable 2) eq_refl H eq_refl) as (_ & _ & A & B).
  split; [exact A | exact B].
Defined.

(** X17.  On an instance that is not closed, [add(s)] for a readable stream
    [s] makes [s] a member with a listener waiting on its ['end'], and if
    [s] was no member before, [remove(s)] right after gives [_sources] back
    as it was. *)
Theorem add_then_remove_round_trip :
  forall st s,
    _closed st = false ->
    isReadableStream s = true ->
    member s (fst (add st s)) = true /\
    listening s (fst (add st s)) = true /\
    (member s st = false ->
     _sources (fst (remove (fst (add st s)) s)) = _sources st).
Proof.
  intros st s Hc Hs.
  pose proof (readable_has_unpipe s Hs) as Hu.
  assert (E : fst (add st s) = register [s] st).
  { destruct (isReadableStream_inv s Hs) as [n ->].
    rewrite add_open by exact Hc. reflexivity. }
  rewrite E. split; [|split].
  - unfold member. simpl. rewrite existsb_app. simpl.
    rewrite strict_eq_refl. simpl. apply orb_true_r.
  - unfold listening. simpl. rewrite existsb_app. simpl.
    rewrite strict_eq_refl. simpl. apply orb_true_r.
  - intros Hm.
    destruct (remove_ok (register [s] st) s Hu)
      as [_ [_ Rs _ _ _ _ _ _ _ _]].
    rewrite Rs. simpl. rewrite filter_app. simpl.
    rewrite strict_eq_refl. simpl. rewrite app_nil_r.
    apply filter_nonmember, Hm.
Qed.

Lemma add_then_remove_round_trip_witness :
  _closed one_source = false /\
  isReadableStream (VReadable 2) = true /\
  member (VReadable 2) one_source = false /\
  member (VReadable 2) (fst (add one_source (VReadable 2))) = true /\
  _sources (fst (remove (fst (add one_source (VReadable 2))) (VReadable 2))) =
    _sources one_source.
Proof.
  split; [reflexivity|]. split; [reflexivity|]. split; [reflexivity|].
  destruct (add_then_remove_round_trip one_source (VReadable 2)
              eq_refl eq_refl) as (A & _ & B).
  split; [exact A | apply B; reflexivity].
Defined.

(** ** [clear] and the pipes *)


Lemma forEach_remove_pipes : forall l st,
  Forall (fun v => has_unpipe v = true) l ->
  pipes (fst (forEach remove l st)) =
  filter (fun x => forallb (fun s => negb (strict_eq x s)) l) (pipes st).
Proof.
  induction l as [|a l IH]; intros st Hl; simpl.
  - symmetry. apply filter_all.
  - inversion Hl as [|? ? Ha Hl']; subst.
    pose proof (remove_pipes st a Ha) as P.
    destruct (remove_ok st a Ha) as [Hr _].
    destruct (remove st a) as [st1 c]; simpl in *; subst c.
    rewrite (IH st1 Hl'), P. apply filter_filter.
Qed.

(** X18.  On an instance a program can hold, [clear()] takes down the pipes
    of every member: no value that was a member is piped into the instance
    after the call. *)
Theorem clear_unpipes_members :
  forall st source,
    reachable st ->
    member source st = true ->
    piped source (fst (clear st)) = 0 /\
    member source (fst (clear st)) = false.
Proof.
  intros st source R Hm.
  destruct (reachable_inv st R) as [Is _ _ _].
  destruct (clear_ok st Is) as (_ & Es & _).
  split; [|unfold member; now rewrite Es].
  unfold piped, clear.
  pose proof (forEach_remove_pipes (_sources st) st
                (Forall_readable_unpipe _ Is)) as P.
  destruct (forEach remove (_sources st) st) as [st' [e|]];
    simpl in *; rewrite P; clear P;
    (apply length_zero_iff_nil, existsb_false_filter;
     apply not_true_is_false; intros H;
     apply existsb_exists in H; destruct H as (x & Hx & Ex);
     apply filter_In in Hx; destruct Hx as [_ Hx];
     unfold member in Hm; apply existsb_exists in Hm;
     destruct Hm as (v & Hv & Ev);
     rewrite forallb_forall in Hx; specialize (Hx v Hv);
     rewrite (strict_eq_trans x source v Ex), strict_eq_sym, Ev in Hx;
     discriminate).
Qed.

Lemma clear_unpipes_members_witness :
  reachable (turn three_entries) /\
  member (VReadable 1) (turn three_entries) = true /\
  piped (VReadable 1) (turn three_entries) = 2 /\
  piped (VReadable 1) (fst (clear (turn three_entries))) = 0.
Proof.
  assert (R : reachable (turn three_entries)).
  { apply reachable_turn, three_entries_reachable. }
  split; [exact R|]. split; [reflexivity|]. split; [reflexivity|].
  apply (clear_unpipes_members (turn three_entries) (VReadable 1) R).
  reflexivity.
Defined.
